(** * sui-package-resolver: package store, materializer and package cache

    Shallow embedding of [crates/sui-package-resolver/src/store.rs] and
    [crates/sui-package-resolver/src/cache.rs]. *)

From Stdlib Require Import List String Ascii NArith ZArith Bool Lia.
Import ListNotations.
Open Scope string_scope.
Open Scope list_scope.

(** ** Basic types *)

(** [AccountAddress] / [ObjectID]: a 32-byte address, as a number. *)
Definition AccountAddress := N.
Definition ObjectID := AccountAddress.
(** [SequenceNumber]: a u64 version. *)
Definition SequenceNumber := N.
Definition bytes := list Byte.byte.

(** Rust's [Result<T, E>]. *)
Inductive result (T E : Type) : Type :=
| Ok : T -> result T E
| Err : E -> result T E.
Arguments Ok {T E} _.
Arguments Err {T E} _.

(** [crate::error::Error], with the variants this code produces. *)
Inductive Error : Type :=
| PackageNotFound (id : AccountAddress)
| NotAPackage (id : AccountAddress)
| EmptyPackage (id : AccountAddress)
| Deserialize (msg : string)
| NoTypeOrigin (id : AccountAddress) (module_ : string) (struct_ : string)
| TypedStore (msg : string)
| Bcs (msg : string)
| Indexer (msg : string).

Definition Result (T : Type) := result T Error.

(** ** [BTreeMap<String, V>]

    A [BTreeMap] with string keys, as its in-order contents: an association
    list with strictly ascending keys (Rust's [String] order is byte-wise, as
    [String.compare]). *)
Definition BTreeMap (V : Type) := list (string * V).

Section BTreeMap.
Context {V : Type}.

Fixpoint bt_get (k : string) (m : BTreeMap V) : option V :=
  match m with
  | [] => None
  | (k', v) :: m' => if String.eqb k k' then Some v else bt_get k m'
  end.

(** [BTreeMap::insert]: replace the value of an existing key, otherwise
    insert at the key's place in the order. *)
Fixpoint bt_insert (k : string) (v : V) (m : BTreeMap V) : BTreeMap V :=
  match m with
  | [] => [(k, v)]
  | (k', v') :: m' =>
      match String.compare k k' with
      | Lt => (k, v) :: m
      | Eq => (k, v) :: m'
      | Gt => (k', v') :: bt_insert k v m'
      end
  end.

(** [BTreeMap::remove]: the removed value and the remaining map. *)
Fixpoint bt_remove (k : string) (m : BTreeMap V) : option V * BTreeMap V :=
  match m with
  | [] => (None, [])
  | (k', v') :: m' =>
      if String.eqb k k' then (Some v', m')
      else let (r, m'') := bt_remove k m' in (r, (k', v') :: m'')
  end.

(** Keys strictly ascending: the representation invariant of a [BTreeMap]. *)
Fixpoint bt_sorted (m : BTreeMap V) : bool :=
  match m with
  | [] => true
  | (k, _) :: m' =>
      match m' with
      | [] => true
      | (k', _) :: _ =>
          match String.compare k k' with Lt => bt_sorted m' | _ => false end
      end
  end.

End BTreeMap.

(** ** On-chain objects ([sui_types::object]) *)

(** [TypeOrigin]: the package that first defined [struct_name] in
    [module_name]. *)
Record TypeOrigin := {
  to_module_name : string;
  to_struct_name : string;
  to_package : ObjectID;
}.

(** [UpgradeInfo]: what a dependency resolves to at this package's version. *)
Record UpgradeInfo := {
  upgraded_id : ObjectID;
  upgraded_version : SequenceNumber;
}.

(** [MovePackage]. [module_map] is a [BTreeMap<String, Vec<u8>>];
    [linkage_table] a [BTreeMap<ObjectID, UpgradeInfo>], in key order. *)
Record MovePackage := {
  mp_id : ObjectID;
  mp_version : SequenceNumber;
  module_map : BTreeMap bytes;
  type_origin_table : list TypeOrigin;
  linkage_table : list (ObjectID * UpgradeInfo);
}.

Record MoveObject := {
  mo_id : ObjectID;
  mo_version : SequenceNumber;
  mo_contents : bytes;
}.

Inductive Data :=
| Data_Move (o : MoveObject)
| Data_Package (p : MovePackage).

Record Object := {
  data : Data;
  previous_transaction : N;
  storage_rebate : N;
}.

Definition try_as_package (d : Data) : option MovePackage :=
  match d with
  | Data_Package p => Some p
  | Data_Move _ => None
  end.

Definition object_id (o : Object) : ObjectID :=
  match data o with
  | Data_Move m => mo_id m
  | Data_Package p => mp_id p
  end.

Definition object_version (o : Object) : SequenceNumber :=
  match data o with
  | Data_Move m => mo_version m
  | Data_Package p => mp_version p
  end.

(** ** Deserialized packages ([crate::{Module, Package}]) *)

(** [CompiledModule], as far as this crate reads it: the module's
    self-address and the names of the structs its bytecode defines. *)
Record CompiledModule := {
  cm_address : AccountAddress;
  cm_structs : list string;
}.

(** [Module]: bytecode and the module's slice of the type-origin table
    (struct name to defining package). *)
Record Module := {
  bytecode : CompiledModule;
  type_origins : BTreeMap AccountAddress;
}.

Fixpoint first_missing_origin (structs : list string)
    (origins : BTreeMap AccountAddress) : option string :=
  match structs with
  | [] => None
  | s :: ss =>
      match bt_get s origins with
      | Some _ => first_missing_origin ss origins
      | None => Some s
      end
  end.

(** Modelled from the spec: [Module::read] (crate root of
    sui-package-resolver, not among the sources). Section 4.1 step 3:
    "attach the subset of the type-origin index belonging to this module,
    failing with NoTypeOrigin if any struct defined in the module's bytecode
    has no corresponding origin entry". The error carries the struct's name. *)
Definition Module_read (bc : CompiledModule) (origins : BTreeMap AccountAddress)
    : result Module string :=
  match first_missing_origin (cm_structs bc) origins with
  | Some struct_ => Err struct_
  | None => Ok {| bytecode := bc; type_origins := origins |}
  end.

Record Package := {
  storage_id : AccountAddress;
  runtime_id : AccountAddress;
  version : SequenceNumber;
  modules : BTreeMap Module;
  linkage : list (AccountAddress * AccountAddress);
}.

(** ** [make_package] *)

(** The [type_origins] index: [entry(module).or_default().insert(struct, pkg)]
    for each row of the type-origin table, in order. *)
Definition index_type_origin (acc : BTreeMap (BTreeMap AccountAddress))
    (t : TypeOrigin) : BTreeMap (BTreeMap AccountAddress) :=
  let inner := match bt_get (to_module_name t) acc with
               | Some m => m
               | None => []
               end in
  bt_insert (to_module_name t) (bt_insert (to_struct_name t) (to_package t) inner) acc.

Definition build_type_origins (tos : list TypeOrigin)
    : BTreeMap (BTreeMap AccountAddress) :=
  fold_left index_type_origin tos [].

Section Materializer.

(** [CompiledModule::deserialize_with_defaults] (move-binary-format); its
    error is kept as the message that [Error::Deserialize] carries. *)
Variable deserialize_with_defaults : bytes -> result CompiledModule string.

(** The [for (name, bytes) in package.serialized_module_map()] loop, with its
    mutable [type_origins], [runtime_id] and [modules], and its early
    returns. *)
Fixpoint load_modules (id : AccountAddress)
    (type_origins : BTreeMap (BTreeMap AccountAddress))
    (runtime_id : option AccountAddress) (mods : BTreeMap Module)
    (mm : BTreeMap bytes) : Result (option AccountAddress * BTreeMap Module) :=
  match mm with
  | [] => Ok (runtime_id, mods)
  | (name, bs) :: rest =>
      let (removed, type_origins') := bt_remove name type_origins in
      let origins := match removed with Some o => o | None => [] end in
      match deserialize_with_defaults bs with
      | Err e => Err (Deserialize e)
      | Ok bc =>
          let runtime_id' := Some (cm_address bc) in
          match Module_read bc origins with
          | Ok module_ =>
              load_modules id type_origins' runtime_id' (bt_insert name module_ mods) rest
          | Err struct_ => Err (NoTypeOrigin id name struct_)
          end
      end
  end.

Definition make_package (id : AccountAddress) (ver : SequenceNumber) (object : Object)
    : Result Package :=
  match try_as_package (data object) with
  | None => Err (NotAPackage id)
  | Some package =>
      let type_origins := build_type_origins (type_origin_table package) in
      match load_modules id type_origins None [] (module_map package) with
      | Err e => Err e
      | Ok (None, _) => Err (EmptyPackage id)
      | Ok (Some rid, mods) =>
          let link := map (fun '(dep, info) => (dep, upgraded_id info))
                          (linkage_table package) in
          Ok {| storage_id := id; runtime_id := rid; version := ver;
                modules := mods; linkage := link |}
      end
  end.

End Materializer.

(** ** The [PackageStore] trait *)

(** The result of a call that may unwind instead of returning (a Rust
    panic, e.g. [unimplemented!]). *)
Inductive Outcome (A : Type) : Type :=
| Returned (r : Result A)
| Panicked (msg : string).
Arguments Returned {A} _.
Arguments Panicked {A} _.

(** [trait PackageStore]: each operation reads, and may update, the store's
    state [S]. *)
Class PackageStore (S : Type) := {
  store_version : AccountAddress -> S -> Result SequenceNumber * S;
  store_fetch : AccountAddress -> S -> Result Package * S;
  store_update : Object -> S -> Outcome unit * S;
}.

Section Stores.

Variable deserialize_with_defaults : bytes -> result CompiledModule string.
(** [bcs::from_bytes::<Object>]. *)
Variable bcs_from_bytes : bytes -> result Object string.

(** *** [DbPackageStore] *)

(** The indexer's [objects] table, as the rows this crate reads
    ([object_id], [object_version] as an i64, [serialized_object]), and
    whether the connection currently fails ([run_query_async] errors). *)
Record IndexerReader := {
  objects : list (ObjectID * (Z * bytes));
  db_fault : option string;
}.

Fixpoint lookup_row (id : ObjectID) (rows : list (ObjectID * (Z * bytes)))
    : option (Z * bytes) :=
  match rows with
  | [] => None
  | (k, r) :: rows' => if N.eqb k id then Some r else lookup_row id rows'
  end.

(** [query.get_result(conn).optional()] filtered on [object_id]. *)
Definition run_query (db : IndexerReader) (id : ObjectID) : Result (option (Z * bytes)) :=
  match db_fault db with
  | Some msg => Err (Indexer msg)
  | None => Ok (lookup_row id (objects db))
  end.

(** [SequenceNumber::from_u64(version as u64)]: an i64 reinterpreted as u64. *)
Definition version_of_i64 (v : Z) : SequenceNumber :=
  Z.to_N (Z.modulo v (2 ^ 64)).

Definition db_version (id : AccountAddress) (db : IndexerReader)
    : Result SequenceNumber * IndexerReader :=
  (match run_query db id with
   | Err e => Err e
   | Ok None => Err (PackageNotFound id)
   | Ok (Some (v, _)) => Ok (version_of_i64 v)
   end, db).

Definition db_fetch (id : AccountAddress) (db : IndexerReader)
    : Result Package * IndexerReader :=
  (match run_query db id with
   | Err e => Err e
   | Ok None => Err (PackageNotFound id)
   | Ok (Some (v, bcs)) =>
       match bcs_from_bytes bcs with
       | Err msg => Err (Bcs msg)
       | Ok object => make_package deserialize_with_defaults id (version_of_i64 v) object
       end
   end, db).

(** [unimplemented!("Package update is not implemented")]. *)
Definition db_update (_object : Object) (db : IndexerReader)
    : Outcome unit * IndexerReader :=
  (Panicked "not implemented: Package update is not implemented", db).

Definition DbPackageStore : PackageStore IndexerReader := {|
  store_version := db_version;
  store_fetch := db_fetch;
  store_update := db_update;
|}.

(** *** [LocalDBPackageStore] *)

(** The rocksdb table [packages: DBMap<ObjectID, Object>], and whether the
    table currently fails ([Error::TypedStore]). *)
Record PackageStoreTables := {
  packages_table : list (ObjectID * Object);
  table_fault : option string;
}.

Fixpoint lookup_object (id : ObjectID) (rows : list (ObjectID * Object)) : option Object :=
  match rows with
  | [] => None
  | (k, o) :: rows' => if N.eqb k id then Some o else lookup_object id rows'
  end.

(** [self.packages.get(&id)]. *)
Definition table_get (t : PackageStoreTables) (id : ObjectID) : Result (option Object) :=
  match table_fault t with
  | Some msg => Err (TypedStore msg)
  | None => Ok (lookup_object id (packages_table t))
  end.

(** [PackageStoreTables::update]: a one-row batch keyed by [package.id()]. *)
Definition tables_update (package : Object) (t : PackageStoreTables)
    : Result unit * PackageStoreTables :=
  match table_fault t with
  | Some msg => (Err (TypedStore msg), t)
  | None =>
      let k := object_id package in
      (Ok tt, {| packages_table :=
                   (k, package) :: filter (fun '(k', _) => negb (N.eqb k' k)) (packages_table t);
                 table_fault := None |})
  end.

(** The remote client [fallback_client.get_object]. *)
Variable get_object : ObjectID -> result Object string.

(** The store's state: its tables, and the ids it has requested from the
    remote client so far (the calls to [get_object], in order). *)
Record LocalDBPackageStore := {
  package_store_tables : PackageStoreTables;
  remote_fetches : list ObjectID;
}.

Definition local_update (object : Object) (s : LocalDBPackageStore)
    : Result unit * LocalDBPackageStore :=
  match try_as_package (data object) with
  | None => (Ok tt, s)
  | Some _package =>
      let (r, t) := tables_update object (package_store_tables s) in
      match r with
      | Err e => (Err e, {| package_store_tables := t; remote_fetches := remote_fetches s |})
      | Ok _ => (Ok tt, {| package_store_tables := t; remote_fetches := remote_fetches s |})
      end
  end.

Definition local_get (id : AccountAddress) (s : LocalDBPackageStore)
    : Result Object * LocalDBPackageStore :=
  match table_get (package_store_tables s) id with
  | Err e => (Err e, s)
  | Ok (Some object) => (Ok object, s)
  | Ok None =>
      let s1 := {| package_store_tables := package_store_tables s;
                   remote_fetches := remote_fetches s ++ [id] |} in
      match get_object id with
      | Err _ => (Err (PackageNotFound id), s1)
      | Ok object =>
          let (r, s2) := local_update object s1 in
          match r with
          | Err e => (Err e, s2)
          | Ok _ => (Ok object, s2)
          end
      end
  end.

Definition local_version (id : AccountAddress) (s : LocalDBPackageStore)
    : Result SequenceNumber * LocalDBPackageStore :=
  let (r, s') := local_get id s in
  (match r with Err e => Err e | Ok o => Ok (object_version o) end, s').

Definition local_fetch (id : AccountAddress) (s : LocalDBPackageStore)
    : Result Package * LocalDBPackageStore :=
  let (r, s') := local_get id s in
  (match r with
   | Err e => Err e
   | Ok object =>
       make_package deserialize_with_defaults (object_id object) (object_version object) object
   end, s').

Definition LocalDBPackageStore_instance : PackageStore LocalDBPackageStore := {|
  store_version := local_version;
  store_fetch := local_fetch;
  store_update := fun o s => let (r, s') := local_update o s in (Returned r, s');
|}.

End Stores.

(** ** [PackageCache] *)

(** [Arc<Package>]: a shared handle; [arc_ptr] is the allocation it points
    to, so two handles are the same instance exactly when their pointers
    agree. *)
Record Arc := {
  arc_ptr : nat;
  arc_pkg : Package;
}.

(** [lru::LruCache<AccountAddress, Arc<Package>>]: its capacity and its
    entries, most recently used first. *)
Record LruCache := {
  lru_cap : nat;
  lru_entries : list (AccountAddress * Arc);
}.

Fixpoint lru_find (k : AccountAddress) (l : list (AccountAddress * Arc)) : option Arc :=
  match l with
  | [] => None
  | (k', v) :: l' => if N.eqb k' k then Some v else lru_find k l'
  end.

Definition lru_detach (k : AccountAddress) (l : list (AccountAddress * Arc))
    : list (AccountAddress * Arc) :=
  filter (fun '(k', _) => negb (N.eqb k' k)) l.

(** [peek]: look up without touching recency. *)
Definition lru_peek (k : AccountAddress) (c : LruCache) : option Arc :=
  lru_find k (lru_entries c).

(** [promote]: move an existing entry to the most recently used place. *)
Definition lru_promote (k : AccountAddress) (c : LruCache) : LruCache :=
  match lru_find k (lru_entries c) with
  | None => c
  | Some v => {| lru_cap := lru_cap c; lru_entries := (k, v) :: lru_detach k (lru_entries c) |}
  end.

(** [get]: look up and promote. *)
Definition lru_get (k : AccountAddress) (c : LruCache) : option Arc * LruCache :=
  (lru_peek k c, lru_promote k c).

(** [push]: replace an existing entry's value (and promote it), or insert a
    new most recently used entry, evicting the least recently used one when
    the cache is full. *)
Definition lru_push (k : AccountAddress) (v : Arc) (c : LruCache) : LruCache :=
  match lru_find k (lru_entries c) with
  | Some _ => {| lru_cap := lru_cap c; lru_entries := (k, v) :: lru_detach k (lru_entries c) |}
  | None =>
      if Nat.leb (lru_cap c) (List.length (lru_entries c))
      then {| lru_cap := lru_cap c; lru_entries := (k, v) :: removelast (lru_entries c) |}
      else {| lru_cap := lru_cap c; lru_entries := (k, v) :: lru_entries c |}
  end.

(** [PACKAGE_CACHE_SIZE]. *)
Definition PACKAGE_CACHE_SIZE : nat := 1024.

Definition lru_new (cap : nat) : LruCache := {| lru_cap := cap; lru_entries := [] |}.

(** The resolution of a race, run under the lock once a fresh package has
    been fetched: keep what is cached if its version is at least the fresh
    one's (promoting it), otherwise push the fresh package. *)
Definition insert_race (id : AccountAddress) (package : Arc) (packages : LruCache)
    : Arc * LruCache :=
  match lru_peek id packages with
  | Some prev =>
      if N.leb (version (arc_pkg package)) (version (arc_pkg prev))
      then (prev, lru_promote id packages)
      else (package, lru_push id package packages)
  | None => (package, lru_push id package packages)
  end.

(** A call the cache makes on its store. *)
Inductive StoreCall :=
| CallVersion (id : AccountAddress)
| CallFetch (id : AccountAddress).

Section Cache.

Context {S : Type} {Store : PackageStore S}.

(** [sui_types::is_system_package]. *)
Variable is_system_package : AccountAddress -> bool.

(** The cache's state: the locked LRU map, its store, the next allocation
    for [Arc::new], and the calls made on the store so far. *)
Record PackageCache := {
  packages : LruCache;
  store : S;
  next_alloc : nat;
  store_calls : list StoreCall;
}.

Definition with_packages (c : PackageCache) (p : LruCache) : PackageCache :=
  {| packages := p; store := store c; next_alloc := next_alloc c; store_calls := store_calls c |}.

(** A state and error monad over the cache: Rust's [?] is [bind]. *)
Definition M (A : Type) := PackageCache -> Result A * PackageCache.

Definition ret {A} (a : A) : M A := fun c => (Ok a, c).

Definition bind {A B} (m : M A) (k : A -> M B) : M B :=
  fun c => let (r, c') := m c in
           match r with
           | Ok a => k a c'
           | Err e => (Err e, c')
           end.

Local Notation "x <- m ;; k" := (bind m (fun x => k))
  (at level 61, m at next level, right associativity).

(** [self.store.version(id).await]. *)
Definition call_version (id : AccountAddress) : M SequenceNumber :=
  fun c => let (r, s') := store_version id (store c) in
           (r, {| packages := packages c; store := s'; next_alloc := next_alloc c;
                  store_calls := store_calls c ++ [CallVersion id] |}).

(** [self.store.fetch(id).await]. *)
Definition call_fetch (id : AccountAddress) : M Package :=
  fun c => let (r, s') := store_fetch id (store c) in
           (r, {| packages := packages c; store := s'; next_alloc := next_alloc c;
                  store_calls := store_calls c ++ [CallFetch id] |}).

(** [Arc::new]: a fresh allocation. *)
Definition arc_new (p : Package) : M Arc :=
  fun c => (Ok {| arc_ptr := next_alloc c; arc_pkg := p |},
            {| packages := packages c; store := store c; next_alloc := Nat.succ (next_alloc c);
               store_calls := store_calls c |}).

(** [packages.get(&id).map(Arc::clone)] under the lock. *)
Definition locked_get (id : AccountAddress) : M (option Arc) :=
  fun c => let (r, p) := lru_get id (packages c) in (Ok r, with_packages c p).

(** The race resolution under the lock. *)
Definition locked_insert_race (id : AccountAddress) (package : Arc) : M Arc :=
  fun c => let (r, p) := insert_race id package (packages c) in (Ok r, with_packages c p).

(** Refetch: [Arc::new(self.store.fetch(id).await?)], then resolve the
    race. *)
Definition refetch (id : AccountAddress) : M Arc :=
  fresh <- call_fetch id ;;
  package <- arc_new fresh ;;
  locked_insert_race id package.

(** [PackageCache::package]. *)
Definition package (id : AccountAddress) : M Arc :=
  candidate <- locked_get id ;;
  match candidate with
  | Some package =>
      if negb (is_system_package id) then ret package
      else
        v <- call_version id ;;
        if N.leb v (version (arc_pkg package)) then ret package
        else refetch id
  | None => refetch id
  end.

(** [PackageCache::update_store]. *)
Definition update_store (object : Object) (c : PackageCache) : Outcome unit * PackageCache :=
  let (r, s') := store_update object (store c) in
  (r, {| packages := packages c; store := s'; next_alloc := next_alloc c;
         store_calls := store_calls c |}).

(** [PackageCache::with_store]. *)
Definition with_store (s : S) : PackageCache :=
  {| packages := lru_new PACKAGE_CACHE_SIZE; store := s; next_alloc := 0; store_calls := [] |}.

(** The version cached under [id], if any. *)
Definition cached_version (c : PackageCache) (id : AccountAddress) : option SequenceNumber :=
  option_map (fun a => version (arc_pkg a)) (lru_peek id (packages c)).

(** A sequence of [package] calls, one after the other. *)
Fixpoint package_calls (ids : list AccountAddress) (c : PackageCache) : PackageCache :=
  match ids with
  | [] => c
  | id :: ids' => package_calls ids' (snd (package id c))
  end.

End Cache.

(** [PackageCache::new]: a cache over the indexer's database. *)
Definition PackageCache_new (reader : IndexerReader) : @PackageCache IndexerReader :=
  with_store reader.

(** ** Sequences of calls on one cache *)

Section Traces.

Context {S : Type} {Store : PackageStore S}.
Variable is_system_package : AccountAddress -> bool.

(** [latest s id]: the version the store in state [s] holds for [id]. *)
Variable latest : S -> AccountAddress -> option SequenceNumber.

(** The store only moves forward: no id it holds disappears or goes back to
    a lower version. *)
Definition store_le (s s' : S) : Prop :=
  forall k v, latest s k = Some v -> exists v', latest s' k = Some v' /\ (v <= v')%N.

Definition replace_store (c : @PackageCache S) (s : S) : @PackageCache S :=
  {| packages := packages c; store := s; next_alloc := next_alloc c;
     store_calls := store_calls c |}.

(** From [c] to [c']: [package] calls, one after the other, while the store
    is upgraded in between (new objects, new versions of system
    packages). *)
Inductive cache_trace : @PackageCache S -> @PackageCache S -> Prop :=
| trace_refl c : cache_trace c c
| trace_call c c' id :
    cache_trace c c' -> cache_trace c (snd (package is_system_package id c'))
| trace_upgrade c c' s' :
    cache_trace c c' -> store_le (store c') s' -> cache_trace c (replace_store c' s').

End Traces.

(** The version the indexer's [objects] table holds for [id]. *)
Definition db_latest (db : IndexerReader) (id : AccountAddress) : option SequenceNumber :=
  match run_query db id with
  | Ok (Some (v, _)) => Some (version_of_i64 v)
  | _ => None
  end.

(** ** Reading a materialized package back *)

(** The slice of the type-origin index that [make_package] hands to the
    module [name]. *)
Definition origins_of (tos : list TypeOrigin) (name : string) : BTreeMap AccountAddress :=
  match bt_get name (build_type_origins tos) with
  | Some o => o
  | None => []
  end.

(** The package that the type-origin table records for [(m, s)]: the last of
    its rows for that pair, if any. *)
Definition last_origin (tos : list TypeOrigin) (m s : string) : option AccountAddress :=
  fold_left (fun acc t =>
               if (String.eqb (to_module_name t) m && String.eqb (to_struct_name t) s)%bool
               then Some (to_package t) else acc) tos None.

(** A module entry that materializes: its bytes deserialize and each of its
    bytecode's structs has an origin. *)
Definition module_loads (deser : bytes -> result CompiledModule string)
    (tos : list TypeOrigin) (entry : string * bytes) : Prop :=
  exists bc, deser (snd entry) = Ok bc /\
             first_missing_origin (cm_structs bc) (origins_of tos (fst entry)) = None.

(** The [Module] a loadable entry turns into. *)
Definition decoded (deser : bytes -> result CompiledModule string)
    (tos : list TypeOrigin) (name : string) (bs : bytes) : option Module :=
  match deser bs with
  | Ok bc => Some {| bytecode := bc; type_origins := origins_of tos name |}
  | Err _ => None
  end.

(** The self-address of the last module that deserializes. *)
Definition last_runtime_id (deser : bytes -> result CompiledModule string)
    (rid : option AccountAddress) (mm : BTreeMap bytes) : option AccountAddress :=
  fold_left (fun r '(_, bs) =>
               match deser bs with Ok bc => Some (cm_address bc) | Err _ => r end) mm rid.

(** ** Store-level predicates *)

(** Every row of the local table is a package object. *)
Definition table_all_packages (t : PackageStoreTables) : Prop :=
  forall k o, In (k, o) (packages_table t) -> try_as_package (data o) <> None.

(** An id the indexer's [objects] table has a row for. *)
Definition db_knows (db : IndexerReader) (id : AccountAddress) : Prop :=
  lookup_row id (objects db) <> None.

(** An id the local store can resolve: a row of its table, or an object the
    remote client returns. *)
Definition local_knows (get_object : ObjectID -> result Object string)
    (s : LocalDBPackageStore) (id : AccountAddress) : Prop :=
  lookup_object id (packages_table (package_store_tables s)) <> None \/
  exists o, get_object id = Ok o.

(** Every id cached by the package cache is one its store can resolve. *)
Definition cache_backed {S : Type} {Store : PackageStore S}
    (knows : S -> AccountAddress -> Prop) (c : PackageCache) : Prop :=
  forall k a, In (k, a) (lru_entries (packages c)) -> knows (store c) k.

(** ** Sample instances *)

Module Samples.

Local Open Scope N_scope.

(** A toy bytecode format: the first byte is the module's self-address, each
    further byte names one struct (a one-character name). *)
Definition toy_deserialize (bs : bytes) : result CompiledModule string :=
  match bs with
  | [] => Err "unexpected end of input"
  | a :: rest =>
      Ok {| cm_address := N.of_nat (Byte.to_nat a);
            cm_structs := map (fun b => String (ascii_of_byte b) EmptyString) rest |}
  end.

(** The framework packages at 0x1, 0x2 and 0x3. *)
Definition is_system_package (a : AccountAddress) : bool :=
  (N.eqb a 1 || N.eqb a 2 || N.eqb a 3)%bool.

Definition pkg_object (id : ObjectID) (ver : SequenceNumber) (mm : BTreeMap bytes)
    (tos : list TypeOrigin) : Object :=
  {| data := Data_Package {| mp_id := id; mp_version := ver; module_map := mm;
                             type_origin_table := tos; linkage_table := [] |};
     previous_transaction := 0; storage_rebate := 0 |}.

Definition coin_object (id : ObjectID) (ver : SequenceNumber) : Object :=
  {| data := Data_Move {| mo_id := id; mo_version := ver; mo_contents := [] |};
     previous_transaction := 0; storage_rebate := 0 |}.

(** [byte "S"] is the struct named "S"; byte 0x05 the address 5. *)
Definition two_modules : Object :=
  pkg_object 9 4 [("a", [Byte.x05; Byte.x53]); ("b", [Byte.x07])]
    [{| to_module_name := "a"; to_struct_name := "S"; to_package := 9 |}].

(** A module whose struct "S" has no origin, followed by malformed bytes. *)
Definition missing_origin_then_malformed : Object :=
  pkg_object 9 4 [("a", [Byte.x05; Byte.x53]); ("b", [])] [].

(** A type-origin row for a module "m2" that the module map lacks. *)
Definition stray_origin : Object :=
  pkg_object 9 4 [("m", [Byte.x05])]
    [{| to_module_name := "m2"; to_struct_name := "S"; to_package := 5 |}].

(** A remote client that knows one coin object (id 7) and nothing else. *)
Definition coin_remote (id : ObjectID) : result Object string :=
  if N.eqb id 7 then Ok (coin_object 7 1) else Err "object not found".

(** A remote client that knows one package (id 9). *)
Definition package_remote (id : ObjectID) : result Object string :=
  if N.eqb id 9 then Ok two_modules else Err "object not found".

(** A remote client that answers a request for id 4 with package 9. *)
Definition misfiled_remote (id : ObjectID) : result Object string :=
  if N.eqb id 4 then Ok two_modules else Err "object not found".

Definition empty_local : LocalDBPackageStore :=
  {| package_store_tables := {| packages_table := []; table_fault := None |};
     remote_fetches := [] |}.

(** The framework package at 0x2, one module "coin" with no struct. *)
Definition framework_object : Object :=
  pkg_object 2 1 [("coin", [Byte.x02])] [].

(** A toy serialization: one byte naming one of the sample objects. *)
Definition toy_bcs (bs : bytes) : result Object string :=
  match bs with
  | [Byte.x02] => Ok framework_object
  | [Byte.x09] => Ok two_modules
  | _ => Err "unexpected bytes"
  end.

(** The indexer before and after an upgrade of the framework at 0x2. *)
Definition db_v1 : IndexerReader :=
  {| objects := [(2, (1%Z, [Byte.x02])); (9, (4%Z, [Byte.x09]))]; db_fault := None |}.

Definition db_v2 : IndexerReader :=
  {| objects := [(2, (2%Z, [Byte.x02])); (9, (4%Z, [Byte.x09]))]; db_fault := None |}.

Definition db_store : PackageStore IndexerReader := DbPackageStore toy_deserialize toy_bcs.

Definition fresh_cache : @PackageCache IndexerReader := with_store db_v1.

(** A one-entry cache over the sample indexer, holding package 9. *)
Definition full_one_cache : @PackageCache IndexerReader :=
  {| packages := {| lru_cap := 1;
                    lru_entries := [(9, {| arc_ptr := 0;
                                           arc_pkg := {| storage_id := 9; runtime_id := 5;
                                                         version := 4; modules := [];
                                                         linkage := [] |} |})] |};
     store := db_v1; next_alloc := 1; store_calls := [] |}.

End Samples.

(** * Proofs *)

(** ** String order and the [BTreeMap] helpers *)

Lemma ascii_compare_N (a b : ascii) :
  Ascii.compare a b = N.compare (N_of_ascii a) (N_of_ascii b).
Proof. reflexivity. Qed.

Lemma string_compare_refl (s : string) : String.compare s s = Eq.
Proof.
  induction s as [|c s IH]; simpl; [reflexivity|].
  rewrite ascii_compare_N, N.compare_refl. exact IH.
Qed.

Lemma string_compare_eq (s t : string) : String.compare s t = Eq -> s = t.
Proof. apply String.compare_eq_iff. Qed.

Lemma string_compare_lt_trans (s t u : string) :
  String.compare s t = Lt -> String.compare t u = Lt -> String.compare s u = Lt.
Proof.
  revert t u. induction s as [|a s IH]; intros [|b t] [|c u]; simpl;
    try discriminate; auto.
  rewrite !ascii_compare_N.
  destruct (N.compare_spec (N_of_ascii a) (N_of_ascii b)) as [Hab|Hab|Hab];
  destruct (N.compare_spec (N_of_ascii b) (N_of_ascii c)) as [Hbc|Hbc|Hbc];
  intros H1 H2; try discriminate.
  - rewrite Hab, Hbc, N.compare_refl. eauto.
  - rewrite Hab. apply N.compare_lt_iff in Hbc. rewrite (proj2 (N.compare_lt_iff _ _) Hbc).
    reflexivity.
  - rewrite <- Hbc. rewrite (proj2 (N.compare_lt_iff _ _) Hab). reflexivity.
  - rewrite (proj2 (N.compare_lt_iff _ _) (N.lt_trans _ _ _ Hab Hbc)). reflexivity.
Qed.

Lemma string_compare_lt_neq (s t : string) : String.compare s t = Lt -> s <> t.
Proof. intros H ->. rewrite string_compare_refl in H. discriminate. Qed.

Section BTreeMapFacts.
Context {V : Type}.

Lemma bt_get_insert_same (k : string) (v : V) (m : BTreeMap V) :
  bt_get k (bt_insert k v m) = Some v.
Proof.
  induction m as [|[k' v'] m IH]; simpl.
  - rewrite String.eqb_refl. reflexivity.
  - destruct (String.compare k k') eqn:E; simpl; rewrite ?String.eqb_refl; auto.
    destruct (String.eqb_spec k k') as [->|]; [rewrite string_compare_refl in E; discriminate|].
    exact IH.
Qed.

Lemma bt_get_insert_other (k k0 : string) (v : V) (m : BTreeMap V) :
  k0 <> k -> bt_get k0 (bt_insert k v m) = bt_get k0 m.
Proof.
  intros Hne. apply String.eqb_neq in Hne.
  induction m as [|[k' v'] m IH]; simpl.
  - rewrite Hne. reflexivity.
  - destruct (String.compare k k') eqn:E.
    + apply string_compare_eq in E. subst k'. simpl. rewrite Hne. reflexivity.
    + simpl. rewrite Hne. reflexivity.
    + simpl. destruct (String.eqb k0 k'); [reflexivity|exact IH].
Qed.

Lemma bt_remove_fst (k : string) (m : BTreeMap V) :
  fst (bt_remove k m) = bt_get k m.
Proof.
  induction m as [|[k' v'] m IH]; simpl; [reflexivity|].
  destruct (String.eqb k k'); [reflexivity|].
  destruct (bt_remove k m) as [r m'']. exact IH.
Qed.

Lemma bt_remove_snd_other (k k0 : string) (m : BTreeMap V) :
  k0 <> k -> bt_get k0 (snd (bt_remove k m)) = bt_get k0 m.
Proof.
  intros Hne.
  induction m as [|[k' v'] m IH]; simpl; [reflexivity|].
  destruct (String.eqb_spec k k') as [->|Hk].
  - apply String.eqb_neq in Hne. rewrite Hne. reflexivity.
  - destruct (bt_remove k m) as [r m''] eqn:E. simpl in *.
    destruct (String.eqb k0 k'); [reflexivity|exact IH].
Qed.

(** The first key of a [BTreeMap] is below all the others. *)
Lemma bt_sorted_head (k : string) (v : V) (m : BTreeMap V) :
  bt_sorted ((k, v) :: m) = true -> forall k', In k' (map fst m) -> String.compare k k' = Lt.
Proof.
  revert k v. induction m as [|[k1 v1] m IH]; intros k v Hs k' Hin; [destruct Hin|].
  simpl in Hs. destruct (String.compare k k1) eqn:E; try discriminate.
  destruct Hin as [<-|Hin]; [exact E|].
  apply (string_compare_lt_trans _ k1); [exact E|]. exact (IH k1 v1 Hs k' Hin).
Qed.

Lemma bt_sorted_tail (k : string) (v : V) (m : BTreeMap V) :
  bt_sorted ((k, v) :: m) = true -> bt_sorted m = true.
Proof.
  destruct m as [|[k1 v1] m]; simpl; [reflexivity|].
  destruct (String.compare k k1); congruence.
Qed.

(** A key of the map holds the value the map looks up for it. *)
Lemma bt_sorted_get_in (k : string) (v : V) (m : BTreeMap V) :
  bt_sorted m = true -> In (k, v) m -> bt_get k m = Some v.
Proof.
  induction m as [|[k1 v1] m IH]; intros Hs Hin; [destruct Hin|].
  simpl. destruct Hin as [[= <- <-]|Hin].
  - rewrite String.eqb_refl. reflexivity.
  - destruct (String.eqb_spec k k1) as [->|].
    + exfalso. pose proof (bt_sorted_head _ _ _ Hs k1) as H.
      rewrite string_compare_refl in H. discriminate H.
      apply in_map_iff. exists (k1, v). auto.
    + apply IH; [eapply bt_sorted_tail; eauto|exact Hin].
Qed.

End BTreeMapFacts.

Lemma bt_get_some_in {V : Type} (k : string) (v : V) (m : BTreeMap V) :
  bt_get k m = Some v -> In k (map fst m).
Proof.
  induction m as [|[k1 v1] m IH]; simpl; [discriminate|].
  destruct (String.eqb_spec k k1) as [->|]; auto.
Qed.

Lemma bt_sorted_head_absent {V : Type} (k : string) (v : V) (m : BTreeMap V) :
  bt_sorted ((k, v) :: m) = true -> bt_get k m = None.
Proof.
  intros Hs. destruct (bt_get k m) as [w|] eqn:E; [|reflexivity].
  apply bt_get_some_in, (bt_sorted_head _ _ _ Hs) in E.
  rewrite string_compare_refl in E. discriminate.
Qed.

(** ** The type-origin index *)

Lemma origins_of_fold (tos : list TypeOrigin) (n s : string) :
  forall acc,
    bt_get s (match bt_get n (fold_left index_type_origin tos acc) with Some o => o | None => [] end)
    = fold_left (fun acc t =>
                   if (String.eqb (to_module_name t) n && String.eqb (to_struct_name t) s)%bool
                   then Some (to_package t) else acc) tos
                (bt_get s (match bt_get n acc with Some o => o | None => [] end)).
Proof.
  induction tos as [|t tos IH]; intros acc; simpl; [reflexivity|].
  rewrite IH. f_equal. unfold index_type_origin.
  destruct (String.eqb_spec (to_module_name t) n) as [<-|Hm]; simpl.
  - rewrite bt_get_insert_same.
    destruct (String.eqb_spec (to_struct_name t) s) as [<-|Hs].
    + rewrite bt_get_insert_same. reflexivity.
    + rewrite bt_get_insert_other by auto. reflexivity.
  - rewrite bt_get_insert_other by auto. reflexivity.
Qed.

Lemma origins_of_spec (tos : list TypeOrigin) (n s : string) :
  bt_get s (origins_of tos n) = last_origin tos n s.
Proof. unfold origins_of, build_type_origins, last_origin. apply origins_of_fold. Qed.

(** ** The module loop *)

Section LoadModules.

Variable deser : bytes -> result CompiledModule string.
Variable id : AccountAddress.
Variable tos0 : list TypeOrigin.

Definition agrees (cur : BTreeMap (BTreeMap AccountAddress)) (mm : BTreeMap bytes) : Prop :=
  forall n, In n (map fst mm) -> bt_get n cur = bt_get n (build_type_origins tos0).

Lemma agrees_tail (cur : BTreeMap (BTreeMap AccountAddress)) (name : string) (bs : bytes)
    (mm : BTreeMap bytes) :
  bt_sorted ((name, bs) :: mm) = true -> agrees cur ((name, bs) :: mm) ->
  agrees (snd (bt_remove name cur)) mm.
Proof.
  intros Hs Hag n Hin. rewrite bt_remove_snd_other.
  - apply Hag. right. exact Hin.
  - intros ->. pose proof (bt_sorted_head _ _ _ Hs name Hin) as Hlt.
    rewrite string_compare_refl in Hlt. discriminate.
Qed.

Lemma removed_origins (cur : BTreeMap (BTreeMap AccountAddress)) (name : string) (bs : bytes)
    (mm : BTreeMap bytes) :
  agrees cur ((name, bs) :: mm) ->
  match fst (bt_remove name cur) with Some o => o | None => [] end = origins_of tos0 name.
Proof.
  intros Hag. rewrite bt_remove_fst, (Hag name) by (left; reflexivity). reflexivity.
Qed.

Lemma load_modules_loads (mm : BTreeMap bytes) :
  forall cur rid mods,
    bt_sorted mm = true -> agrees cur mm -> Forall (module_loads deser tos0) mm ->
    exists mods',
      load_modules deser id cur rid mods mm = Ok (last_runtime_id deser rid mm, mods') /\
      forall n, bt_get n mods' =
                match bt_get n mm with
                | Some bs => decoded deser tos0 n bs
                | None => bt_get n mods
                end.
Proof.
  induction mm as [|[name bs] mm IH]; intros cur rid mods Hs Hag Hall.
  - exists mods. split; reflexivity.
  - inversion Hall as [|? ? [bc [Hdes Hmiss]] Hall']; subst. simpl in Hdes, Hmiss.
    pose proof (removed_origins cur name bs mm Hag) as Hrem.
    pose proof (agrees_tail cur name bs mm Hs Hag) as Hag'.
    simpl. destruct (bt_remove name cur) as [removed cur'] eqn:R. simpl in Hrem, Hag'.
    rewrite Hrem, Hdes. unfold Module_read. rewrite Hmiss.
    destruct (IH cur' (Some (cm_address bc))
                (bt_insert name {| bytecode := bc; type_origins := origins_of tos0 name |} mods)
                (bt_sorted_tail _ _ _ Hs) Hag' Hall') as [mods' [Hload Hget]].
    exists mods'. split.
    + rewrite Hload. unfold last_runtime_id. simpl. rewrite ?Hdes. reflexivity.
    + intros n. rewrite Hget. simpl. destruct (String.eqb_spec n name) as [->|Hn].
      * rewrite (bt_sorted_head_absent _ _ _ Hs), bt_get_insert_same.
        unfold decoded. rewrite Hdes. reflexivity.
      * rewrite bt_get_insert_other by exact Hn. reflexivity.
Qed.

(** The first module (in key order) that does not materialize decides the
    error. *)
Lemma load_modules_first_failure (pre : BTreeMap bytes) (name : string) (bs : bytes)
    (rest : BTreeMap bytes) :
  forall cur rid mods,
    bt_sorted (pre ++ (name, bs) :: rest) = true -> agrees cur (pre ++ (name, bs) :: rest) ->
    Forall (module_loads deser tos0) pre -> ~ module_loads deser tos0 (name, bs) ->
    (exists e, deser bs = Err e /\
               load_modules deser id cur rid mods (pre ++ (name, bs) :: rest) = Err (Deserialize e))
    \/ (exists bc s, deser bs = Ok bc /\
                     first_missing_origin (cm_structs bc) (origins_of tos0 name) = Some s /\
                     load_modules deser id cur rid mods (pre ++ (name, bs) :: rest)
                     = Err (NoTypeOrigin id name s)).
Proof.
  induction pre as [|[p pbs] pre IH]; intros cur rid mods Hs Hag Hall Hbad.
  - simpl. pose proof (removed_origins cur name bs rest Hag) as Hrem.
    destruct (bt_remove name cur) as [removed cur'] eqn:R. simpl in Hrem. rewrite Hrem.
    destruct (deser bs) as [bc|e] eqn:Hdes.
    + right. unfold Module_read.
      destruct (first_missing_origin (cm_structs bc) (origins_of tos0 name)) as [s|] eqn:Hm.
      * exists bc, s. auto.
      * exfalso. apply Hbad. exists bc. auto.
    + left. exists e. auto.
  - inversion Hall as [|? ? [bc [Hdes Hmiss]] Hall']; subst. simpl in Hdes, Hmiss.
    simpl app in *.
    pose proof (removed_origins cur p pbs _ Hag) as Hrem.
    pose proof (agrees_tail cur p pbs _ Hs Hag) as Hag'.
    simpl. destruct (bt_remove p cur) as [removed cur'] eqn:R. simpl in Hrem, Hag'.
    rewrite Hrem, Hdes. unfold Module_read. rewrite Hmiss.
    apply IH; auto. eapply bt_sorted_tail; eauto.
Qed.

Lemma load_modules_errors (mm : BTreeMap bytes) :
  forall cur rid mods e,
    load_modules deser id cur rid mods mm = Err e ->
    (exists m, e = Deserialize m) \/ (exists n s, e = NoTypeOrigin id n s).
Proof.
  induction mm as [|[name bs] mm IH]; intros cur rid mods e H; simpl in H; [discriminate|].
  destruct (bt_remove name cur) as [removed cur'].
  destruct (deser bs) as [bc|m]; [|injection H as <-; left; eauto].
  destruct (Module_read bc _) as [md|s]; [eapply IH; exact H|].
  injection H as <-. right. eauto.
Qed.

Lemma load_modules_runtime_id (mm : BTreeMap bytes) :
  forall cur rid mods r mods',
    load_modules deser id cur rid mods mm = Ok (r, mods') -> mm <> [] -> exists a, r = Some a.
Proof.
  induction mm as [|[name bs] mm IH]; intros cur rid mods r mods' H Hne; [congruence|].
  simpl in H. destruct (bt_remove name cur) as [removed cur'].
  destruct (deser bs) as [bc|m]; [|discriminate].
  destruct (Module_read bc _) as [md|s]; [|discriminate].
  destruct mm as [|e mm].
  - simpl in H. injection H as <- <-. eauto.
  - eapply IH; [exact H|discriminate].
Qed.

End LoadModules.

Lemma last_runtime_id_last (deser : bytes -> result CompiledModule string)
    (rid : option AccountAddress) (pre : BTreeMap bytes) (name : string) (bs : bytes)
    (bc : CompiledModule) :
  deser bs = Ok bc -> last_runtime_id deser rid (pre ++ [(name, bs)]) = Some (cm_address bc).
Proof.
  intros Hdes. unfold last_runtime_id. rewrite fold_left_app. simpl. rewrite Hdes. reflexivity.
Qed.

Lemma make_package_version (deser : bytes -> result CompiledModule string)
    (id : AccountAddress) (ver : SequenceNumber) (obj : Object) (p : Package) :
  make_package deser id ver obj = Ok p -> version p = ver /\ storage_id p = id.
Proof.
  unfold make_package. destruct (try_as_package (data obj)) as [mp|]; [|discriminate].
  destruct (load_modules _ _ _ _ _ _) as [[[rid|] mods]|e]; try discriminate.
  intros H. injection H as <-. auto.
Qed.

Lemma bt_in_get {V : Type} (k : string) (m : BTreeMap V) :
  In k (map fst m) -> exists v, bt_get k m = Some v.
Proof.
  induction m as [|[k1 v1] m IH]; simpl; [contradiction|].
  intros [->|Hin].
  - rewrite String.eqb_refl. eauto.
  - destruct (String.eqb k k1); eauto.
Qed.

Lemma bt_sorted_app_last {V : Type} (pre : BTreeMap V) (name : string) (v : V) :
  bt_sorted (pre ++ [(name, v)]) = true ->
  forall n, In n (map fst pre) -> String.compare n name = Lt.
Proof.
  induction pre as [|[k w] pre IH]; intros Hs n Hin; [destruct Hin|].
  simpl app in Hs. destruct Hin as [<-|Hin].
  - apply (bt_sorted_head _ _ _ Hs). rewrite map_app, in_app_iff. right. left. reflexivity.
  - apply IH; [eapply bt_sorted_tail; eauto|exact Hin].
Qed.

(** If the module loop succeeds, every module materialized. *)
Lemma load_modules_ok_inv (deser : bytes -> result CompiledModule string) (id : AccountAddress)
    (tos0 : list TypeOrigin) (mm : BTreeMap bytes) :
  forall cur rid mods r,
    bt_sorted mm = true -> agrees tos0 cur mm ->
    load_modules deser id cur rid mods mm = Ok r -> Forall (module_loads deser tos0) mm.
Proof.
  induction mm as [|[name bs] mm IH]; intros cur rid mods r Hs Hag H; [constructor|].
  pose proof (removed_origins tos0 cur name bs mm Hag) as Hrem.
  pose proof (agrees_tail tos0 cur name bs mm Hs Hag) as Hag'.
  simpl in H. destruct (bt_remove name cur) as [removed cur'] eqn:R. simpl in Hrem, Hag'.
  rewrite Hrem in H.
  destruct (deser bs) as [bc|e] eqn:Hdes; [|discriminate].
  unfold Module_read in H.
  destruct (first_missing_origin (cm_structs bc) (origins_of tos0 name)) eqn:Hm; [discriminate|].
  constructor.
  - exists bc. auto.
  - eapply IH; [eapply bt_sorted_tail; eauto|exact Hag'|exact H].
Qed.

(** ** Claims about the materializer *)

Open Scope N_scope.

(** C8: [make_package] sets the runtime id from each module's self-address
    in turn, in ascending name order, without comparing them: for a package
    whose modules all deserialize and have their origins, it succeeds
    whatever the modules' self-addresses, and the runtime id is the
    self-address of the last module, the one with the greatest name. *)
Theorem make_package_runtime_id_last_module
    (deser : bytes -> result CompiledModule string) (id : AccountAddress)
    (ver : SequenceNumber) (obj : Object) (mp : MovePackage)
    (pre : BTreeMap bytes) (name : string) (bs : bytes) (bc : CompiledModule) :
  data obj = Data_Package mp ->
  module_map mp = pre ++ [(name, bs)] ->
  bt_sorted (module_map mp) = true ->
  Forall (module_loads deser (type_origin_table mp)) (module_map mp) ->
  deser bs = Ok bc ->
  (forall n, In n (map fst pre) -> String.compare n name = Lt) /\
  exists pkg, make_package deser id ver obj = Ok pkg /\ runtime_id pkg = cm_address bc.
Proof.
  intros Hobj Hmm Hs Hall Hdes. split.
  - rewrite Hmm in Hs. exact (bt_sorted_app_last _ _ _ Hs).
  - unfold make_package. rewrite Hobj. simpl.
    destruct (load_modules_loads deser id (type_origin_table mp) (module_map mp)
                (build_type_origins (type_origin_table mp)) None [] Hs
                (fun n _ => eq_refl) Hall) as [mods [Hload _]].
    rewrite Hload, Hmm, (last_runtime_id_last _ _ _ _ _ _ Hdes).
    eexists. split; reflexivity.
Qed.

Lemma make_package_runtime_id_last_module_witness :
  (exists pkg, make_package Samples.toy_deserialize 9 4 Samples.two_modules = Ok pkg
               /\ runtime_id pkg = 7%N)
  /\ (forall n, In n (map fst [("a", [Byte.x05; Byte.x53])]) -> String.compare n "b" = Lt).
Proof.
  pose proof (make_package_runtime_id_last_module Samples.toy_deserialize 9 4
                Samples.two_modules _ [("a", [Byte.x05; Byte.x53])] "b" [Byte.x07]
                {| cm_address := 7; cm_structs := [] |}
                eq_refl eq_refl eq_refl) as H.
  destruct H as [Hord Hpkg].
  - repeat constructor.
    + exists {| cm_address := 5; cm_structs := ["S"] |}. split; reflexivity.
    + exists {| cm_address := 7; cm_structs := [] |}. split; reflexivity.
  - reflexivity.
  - split; [exact Hpkg|exact Hord].
Defined.

(** C7 (as the code behaves): [make_package] fails with [NotAPackage] on an
    object that is not a package; on a package it fails with [EmptyPackage]
    exactly when the module map is empty; a module that is malformed, or one
    of whose structs has no origin, makes it fail (it never succeeds then);
    the error reported is that of the first such module in name order:
    [Deserialize] if its bytes are malformed, [NoTypeOrigin] if a struct of
    its bytecode lacks an origin. *)
Theorem make_package_error_classification
    (deser : bytes -> result CompiledModule string) (id : AccountAddress)
    (ver : SequenceNumber) (obj : Object) :
  (try_as_package (data obj) = None -> make_package deser id ver obj = Err (NotAPackage id)) /\
  forall mp, data obj = Data_Package mp -> bt_sorted (module_map mp) = true ->
    ((exists a, make_package deser id ver obj = Err (EmptyPackage a)) <-> module_map mp = []) /\
    ((exists entry, In entry (module_map mp) /\
                    ~ module_loads deser (type_origin_table mp) entry) ->
     forall pkg, make_package deser id ver obj <> Ok pkg) /\
    (forall pre name bs rest,
       module_map mp = pre ++ (name, bs) :: rest ->
       Forall (module_loads deser (type_origin_table mp)) pre ->
       ~ module_loads deser (type_origin_table mp) (name, bs) ->
       (exists e, deser bs = Err e /\ make_package deser id ver obj = Err (Deserialize e)) \/
       (exists bc s, deser bs = Ok bc /\
          first_missing_origin (cm_structs bc) (origins_of (type_origin_table mp) name) = Some s /\
          make_package deser id ver obj = Err (NoTypeOrigin id name s))).
Proof.
  split.
  - intros H. unfold make_package. rewrite H. reflexivity.
  - intros mp Hobj Hs.
    assert (Hmk : make_package deser id ver obj =
              match load_modules deser id (build_type_origins (type_origin_table mp)) None []
                      (module_map mp) with
              | Err e => Err e
              | Ok (None, _) => Err (EmptyPackage id)
              | Ok (Some rid, mods) =>
                  Ok {| storage_id := id; runtime_id := rid; version := ver; modules := mods;
                        linkage := map (fun '(dep, info) => (dep, upgraded_id info))
                                     (linkage_table mp) |}
              end) by (unfold make_package; rewrite Hobj; reflexivity).
    rewrite Hmk. clear Hmk.
    split; [|split].
    + split.
      * intros [a Ha].
        destruct (module_map mp) as [|e mm] eqn:Emm; [reflexivity|exfalso].
        rewrite <- Emm in Ha.
        destruct (load_modules _ _ _ _ _ _) as [[r mods]|err] eqn:Hl.
        -- destruct (load_modules_runtime_id deser id _ _ _ _ _ _ Hl) as [x ->];
             [rewrite Emm; discriminate|discriminate].
        -- injection Ha as Ha. subst err.
           destruct (load_modules_errors deser id _ _ _ _ _ Hl) as [[m Hm]|[n [s' Hm]]];
             discriminate.
      * intros ->. simpl. eauto.
    + intros [entry [Hin Hbad]] pkg Hok.
      destruct (load_modules _ _ _ _ _ _) as [[r mods]|err] eqn:Hl; [|discriminate].
      pose proof (load_modules_ok_inv _ _ _ _ _ _ _ _ Hs (fun n _ => eq_refl) Hl) as Hall.
      rewrite Forall_forall in Hall. exact (Hbad (Hall _ Hin)).
    + intros pre name bs rest Hmm Hpre Hbad.
      rewrite Hmm in Hs |- *.
      destruct (load_modules_first_failure deser id (type_origin_table mp) pre name bs rest
                  (build_type_origins (type_origin_table mp)) None [] Hs
                  (fun n _ => eq_refl) Hpre Hbad)
        as [[e [He Hl]]|[bc [s [Hbc [Hm Hl]]]]]; rewrite Hl.
      * left. eauto.
      * right. eauto 6.
Qed.

Lemma make_package_error_classification_witness :
  make_package Samples.toy_deserialize 9 4 Samples.missing_origin_then_malformed
  = Err (NoTypeOrigin 9 "a" "S")
  /\ make_package Samples.toy_deserialize 9 4 (Samples.coin_object 9 4) = Err (NotAPackage 9).
Proof.
  destruct (make_package_error_classification Samples.toy_deserialize 9 4
              Samples.missing_origin_then_malformed) as [_ Hpkg].
  destruct (Hpkg _ eq_refl eq_refl) as [_ [_ Hfirst]].
  destruct (Hfirst [] "a" [Byte.x05; Byte.x53] [("b", [])] eq_refl (Forall_nil _))
    as [[e [He _]]|[bc [s [Hbc [Hm Hl]]]]].
  - intros [bc [Hbc Hm]]. simpl in Hbc. injection Hbc as <-. discriminate Hm.
  - discriminate He.
  - injection Hbc as <-. simpl in Hm. injection Hm as <-. split; [exact Hl|].
    destruct (make_package_error_classification Samples.toy_deserialize 9 4
                (Samples.coin_object 9 4)) as [Hnot _].
    apply Hnot. reflexivity.
Defined.

(** C7 fails as stated: a package whose module "b" is malformed does not
    fail with [Deserialize] when an earlier module "a" has a struct without
    origin; it fails with [NoTypeOrigin]. *)
Lemma make_package_malformed_module_not_deserialize :
  (exists e, Samples.toy_deserialize [] = Err e) /\
  In ("b", []) (module_map {| mp_id := 9; mp_version := 4;
                              module_map := [("a", [Byte.x05; Byte.x53]); ("b", [])];
                              type_origin_table := []; linkage_table := [] |}) /\
  Samples.missing_origin_then_malformed =
    Samples.pkg_object 9 4 [("a", [Byte.x05; Byte.x53]); ("b", [])] [] /\
  ~ (exists e, make_package Samples.toy_deserialize 9 4 Samples.missing_origin_then_malformed
               = Err (Deserialize e)).
Proof.
  split; [eexists; reflexivity|]. split; [simpl; auto|]. split; [reflexivity|].
  intros [e He]. vm_compute in He. discriminate He.
Qed.

(** C4 (as the code behaves): for a package whose modules all deserialize
    and have their origins, the [Package] that [make_package] builds reads
    back as: the given storage id and version, the runtime id of the last
    module, exactly the module map's names, each module's deserialized
    bytecode, and for each of these modules, for every struct name, the
    package that the type-origin table records for that (module, struct)
    pair (the last such row when there are several). Rows naming a module
    absent from the module map are not kept. *)
Theorem make_package_read_back
    (deser : bytes -> result CompiledModule string) (id : AccountAddress)
    (ver : SequenceNumber) (obj : Object) (mp : MovePackage) :
  data obj = Data_Package mp ->
  bt_sorted (module_map mp) = true ->
  module_map mp <> [] ->
  Forall (module_loads deser (type_origin_table mp)) (module_map mp) ->
  exists pkg,
    make_package deser id ver obj = Ok pkg /\
    storage_id pkg = id /\ version pkg = ver /\
    Some (runtime_id pkg) = last_runtime_id deser None (module_map mp) /\
    (forall n, bt_get n (modules pkg) <> None <-> In n (map fst (module_map mp))) /\
    (forall n bs, bt_get n (module_map mp) = Some bs ->
       exists md, bt_get n (modules pkg) = Some md /\ deser bs = Ok (bytecode md) /\
                  forall s, bt_get s (type_origins md) = last_origin (type_origin_table mp) n s) /\
    linkage pkg = map (fun '(dep, info) => (dep, upgraded_id info)) (linkage_table mp).
Proof.
  intros Hobj Hs Hne Hall.
  destruct (load_modules_loads deser id (type_origin_table mp) (module_map mp)
              (build_type_origins (type_origin_table mp)) None [] Hs
              (fun n _ => eq_refl) Hall) as [mods [Hload Hget]].
  destruct (load_modules_runtime_id deser id _ _ _ _ _ _ Hload Hne) as [rid Hrid].
  unfold make_package. rewrite Hobj. simpl. rewrite Hload, Hrid.
  eexists. split; [reflexivity|]. simpl.
  split; [reflexivity|]. split; [reflexivity|]. split; [reflexivity|].
  split; [|split; [|reflexivity]].
  - intros n. rewrite Hget. split.
    + destruct (bt_get n (module_map mp)) as [bs|] eqn:E.
      * intros _. exact (bt_get_some_in _ _ _ E).
      * simpl. congruence.
    + intros Hin. destruct (bt_in_get _ _ Hin) as [bs E]. rewrite E.
      rewrite Forall_forall in Hall.
      assert (Hin' : In (n, bs) (module_map mp)).
      { clear -E. induction (module_map mp) as [|[k v] m IH]; simpl in *; [discriminate|].
        destruct (String.eqb_spec n k) as [->|]; [injection E as ->; auto|auto]. }
      destruct (Hall _ Hin') as [bc [Hbc _]]. simpl in Hbc.
      unfold decoded. rewrite Hbc. discriminate.
  - intros n bs E. rewrite Hget, E.
    rewrite Forall_forall in Hall.
    assert (Hin' : In (n, bs) (module_map mp)).
    { clear -E. induction (module_map mp) as [|[k v] m IH]; simpl in *; [discriminate|].
      destruct (String.eqb_spec n k) as [->|]; [injection E as ->; auto|auto]. }
    destruct (Hall _ Hin') as [bc [Hbc _]]. simpl in Hbc.
    unfold decoded. rewrite Hbc. eexists. split; [reflexivity|].
    split; [reflexivity|]. intros s. simpl. apply origins_of_spec.
Qed.

Lemma make_package_read_back_witness :
  exists pkg, make_package Samples.toy_deserialize 9 4 Samples.two_modules = Ok pkg /\
              bt_get "S" (type_origins
                            (match bt_get "a" (modules pkg) with
                             | Some md => md
                             | None => {| bytecode := {| cm_address := 0; cm_structs := [] |};
                                          type_origins := [] |}
                             end)) = Some 9.
Proof.
  destruct (make_package_read_back Samples.toy_deserialize 9 4 Samples.two_modules _
              eq_refl eq_refl ltac:(discriminate)) as [pkg [Hmk [_ [_ [_ [_ [Hmods _]]]]]]].
  - repeat constructor.
    + exists {| cm_address := 5; cm_structs := ["S"] |}. split; reflexivity.
    + exists {| cm_address := 7; cm_structs := [] |}. split; reflexivity.
  - exists pkg. split; [exact Hmk|].
    destruct (Hmods "a" [Byte.x05; Byte.x53] eq_refl) as [md [Hmd [_ Hor]]].
    rewrite Hmd, Hor. reflexivity.
Defined.

(** C4 fails as stated: the origin row for module "m2", which the module map
    lacks, is not found anywhere in the materialized package. *)
Lemma make_package_drops_stray_origin :
  In {| to_module_name := "m2"; to_struct_name := "S"; to_package := 5 |}
     (match data Samples.stray_origin with
      | Data_Package mp => type_origin_table mp
      | Data_Move _ => []
      end) /\
  exists pkg, make_package Samples.toy_deserialize 9 4 Samples.stray_origin = Ok pkg /\
              bt_get "m2" (modules pkg) = None /\
              (forall n md, bt_get n (modules pkg) = Some md -> bt_get "S" (type_origins md) = None).
Proof.
  split; [simpl; auto|].
  eexists. split; [vm_compute; reflexivity|]. split; [reflexivity|].
  intros n md H. simpl in H.
  destruct (String.eqb n "m"); [injection H as <-; reflexivity|discriminate].
Qed.

(** ** Claims about the stores *)

Lemma tables_update_all_packages (o : Object) (t : PackageStoreTables) :
  try_as_package (data o) <> None -> table_all_packages t ->
  table_all_packages (snd (tables_update o t)).
Proof.
  intros Ho Ht k o' Hin. unfold tables_update in Hin.
  destruct (table_fault t); simpl in Hin; [exact (Ht _ _ Hin)|].
  destruct Hin as [[= _ <-]|Hin]; [exact Ho|].
  apply filter_In in Hin. exact (Ht _ _ (proj1 Hin)).
Qed.

Lemma local_update_all_packages (o : Object) (s : LocalDBPackageStore) :
  table_all_packages (package_store_tables s) ->
  table_all_packages (package_store_tables (snd (local_update o s))).
Proof.
  intros Hs. unfold local_update.
  destruct (try_as_package (data o)) as [mp|] eqn:Ho; [|exact Hs].
  pose proof (tables_update_all_packages o (package_store_tables s)) as H.
  destruct (tables_update o (package_store_tables s)) as [r t].
  destruct r; (apply H; [congruence|exact Hs]).
Qed.

Lemma local_get_all_packages (get_object : ObjectID -> result Object string)
    (id : AccountAddress) (s : LocalDBPackageStore) :
  table_all_packages (package_store_tables s) ->
  table_all_packages (package_store_tables (snd (local_get get_object id s))).
Proof.
  intros Hs. unfold local_get.
  destruct (table_get (package_store_tables s) id) as [[o|]|e]; try exact Hs.
  destruct (get_object id) as [o|m]; [|exact Hs].
  pose proof (local_update_all_packages o
                {| package_store_tables := package_store_tables s;
                   remote_fetches := remote_fetches s ++ [id] |} Hs) as H.
  destruct (local_update o _) as [r s2]. destruct r; exact H.
Qed.

(** C10: the local table only ever holds packages. [update] writes nothing
    and returns ok for a non-package; [get], [version], [fetch] and
    [update] keep a table of packages a table of packages; a non-package
    object that [get] fetches from the remote client is returned and not
    written. *)
Theorem local_table_holds_only_packages
    (deser : bytes -> result CompiledModule string)
    (get_object : ObjectID -> result Object string) :
  (forall o s, try_as_package (data o) = None -> local_update o s = (Ok tt, s)) /\
  (forall o s, table_all_packages (package_store_tables s) ->
     table_all_packages (package_store_tables (snd (local_update o s)))) /\
  (forall id s, table_all_packages (package_store_tables s) ->
     table_all_packages (package_store_tables (snd (local_get get_object id s))) /\
     table_all_packages (package_store_tables (snd (local_version get_object id s))) /\
     table_all_packages (package_store_tables (snd (local_fetch deser get_object id s)))) /\
  (forall id s o,
     table_get (package_store_tables s) id = Ok None -> get_object id = Ok o ->
     try_as_package (data o) = None ->
     local_get get_object id s =
       (Ok o, {| package_store_tables := package_store_tables s;
                 remote_fetches := remote_fetches s ++ [id] |})).
Proof.
  split; [|split; [|split]].
  - intros o s Ho. unfold local_update. rewrite Ho. reflexivity.
  - exact local_update_all_packages.
  - intros id s Hs. pose proof (local_get_all_packages get_object id s Hs) as H.
    unfold local_version, local_fetch.
    destruct (local_get get_object id s) as [r s']. simpl in *. auto.
  - intros id s o Hmiss Hget Ho. unfold local_get. rewrite Hmiss, Hget.
    unfold local_update. rewrite Ho. reflexivity.
Qed.

Lemma local_table_holds_only_packages_witness :
  package_store_tables
    (snd (local_get Samples.coin_remote 7 Samples.empty_local))
  = package_store_tables Samples.empty_local
  /\ local_update (Samples.coin_object 7 1) Samples.empty_local = (Ok tt, Samples.empty_local).
Proof.
  destruct (local_table_holds_only_packages Samples.toy_deserialize Samples.coin_remote)
    as [Hupd [_ [_ Hget]]].
  split.
  - rewrite (Hget 7 Samples.empty_local (Samples.coin_object 7 1) eq_refl eq_refl eq_refl).
    reflexivity.
  - apply Hupd. reflexivity.
Defined.

(** C5 (as the code behaves): on a miss in a readable local table, [get]
    asks the remote client exactly once. A remote failure is [NotFound] and
    writes nothing. A fetched non-package is returned and not written. A
    fetched package is written under its own id (whether or not that is the
    requested id) and returned; when that id is the requested one, the next
    [get] for it asks the remote client nothing and returns the same
    object. *)
Theorem local_get_miss_fetches_once
    (get_object : ObjectID -> result Object string) (id : AccountAddress)
    (s s' : LocalDBPackageStore) (r : Result Object) :
  table_fault (package_store_tables s) = None ->
  lookup_object id (packages_table (package_store_tables s)) = None ->
  local_get get_object id s = (r, s') ->
  remote_fetches s' = remote_fetches s ++ [id] /\
  match get_object id with
  | Err _ => r = Err (PackageNotFound id) /\ package_store_tables s' = package_store_tables s
  | Ok o =>
      r = Ok o /\
      (try_as_package (data o) = None -> package_store_tables s' = package_store_tables s) /\
      (try_as_package (data o) <> None ->
       lookup_object (object_id o) (packages_table (package_store_tables s')) = Some o /\
       (object_id o = id -> local_get get_object id s' = (Ok o, s')))
  end.
Proof.
  intros Hok Hmiss Hget. unfold local_get, table_get in Hget.
  rewrite Hok, Hmiss in Hget.
  destruct (get_object id) as [o|m] eqn:Hrem.
  - unfold local_update in Hget. simpl in Hget.
    destruct (try_as_package (data o)) as [mp|] eqn:Ho.
    + unfold tables_update in Hget. simpl in Hget. rewrite Hok in Hget.
      injection Hget as <- <-. simpl. split; [reflexivity|].
      split; [reflexivity|]. split; [discriminate|].
      intros _. split.
      * cbn [package_store_tables packages_table lookup_object]. rewrite N.eqb_refl. reflexivity.
      * intros Hid. unfold local_get, table_get. simpl. rewrite Hid, N.eqb_refl. reflexivity.
    + injection Hget as <- <-. simpl. split; [reflexivity|].
      split; [reflexivity|]. split; [reflexivity|]. congruence.
  - injection Hget as <- <-. simpl. auto.
Qed.

Lemma local_get_miss_fetches_once_witness :
  remote_fetches (snd (local_get Samples.package_remote 9
                         (snd (local_get Samples.package_remote 9 Samples.empty_local))))
  = [9] /\
  lookup_object 9 (packages_table (package_store_tables
                     (snd (local_get Samples.misfiled_remote 4 Samples.empty_local))))
  = Some Samples.two_modules.
Proof.
  split.
  2:{ destruct (local_get Samples.misfiled_remote 4 Samples.empty_local) as [r s'] eqn:E.
      destruct (local_get_miss_fetches_once Samples.misfiled_remote 4 Samples.empty_local s' r
                  eq_refl eq_refl E) as [_ Hcase].
      simpl in Hcase. destruct Hcase as [_ [_ Hpkg]].
      exact (proj1 (Hpkg ltac:(discriminate))). }
  destruct (local_get Samples.package_remote 9 Samples.empty_local) as [r s'] eqn:E.
  destruct (local_get_miss_fetches_once Samples.package_remote 9 Samples.empty_local s' r
              eq_refl eq_refl E) as [Hlog Hcase].
  simpl in Hcase. destruct Hcase as [_ [_ Hnext]].
  simpl. rewrite (proj2 (Hnext ltac:(discriminate)) eq_refl). simpl. rewrite Hlog. reflexivity.
Defined.

(** C5 fails as stated: a non-package fetched on a miss is not written, so
    a second [get] for the same id asks the remote client again. *)
Lemma local_get_non_package_fetched_twice :
  remote_fetches (snd (local_get Samples.coin_remote 7
                         (snd (local_get Samples.coin_remote 7 Samples.empty_local))))
  = [7; 7].
Proof. reflexivity. Qed.

(** C9 (as the code behaves): [DbPackageStore::update] is
    [unimplemented!]: for every object it panics rather than returning ok
    or an error, and it leaves the database as it was; so does
    [update_store] on a cache over this store. *)
Theorem db_update_panics
    (deser : bytes -> result CompiledModule string) (bcs : bytes -> result Object string)
    (is_system_package : AccountAddress -> bool) :
  (forall o db, db_update o db = (Panicked "not implemented: Package update is not implemented", db)) /\
  (forall o (c : @PackageCache IndexerReader),
     @update_store IndexerReader (DbPackageStore deser bcs) o c =
       (Panicked "not implemented: Package update is not implemented", c)).
Proof.
  split; [reflexivity|]. intros o [p st n calls]. reflexivity.
Qed.

(** C9 fails as stated: the call does not return an error, it panics. *)
Lemma db_update_returns_no_error :
  ~ (exists e, fst (db_update (Samples.coin_object 7 1) {| objects := []; db_fault := None |})
               = Returned (Err e)).
Proof. intros [e He]. discriminate He. Qed.

(** ** The LRU map *)

Section LruFacts.

Lemma lru_find_in (k : AccountAddress) (l : list (AccountAddress * Arc)) (v : Arc) :
  lru_find k l = Some v -> In (k, v) l.
Proof.
  induction l as [|[k' v'] l IH]; simpl; [discriminate|].
  destruct (N.eqb_spec k' k) as [->|]; [intros [= ->]; left; reflexivity|].
  intros H. right. exact (IH H).
Qed.

Lemma lru_find_detach_other (j k : AccountAddress) (l : list (AccountAddress * Arc)) :
  j <> k -> lru_find j (lru_detach k l) = lru_find j l.
Proof.
  intros Hne. unfold lru_detach.
  induction l as [|[k' v'] l IH]; simpl; [reflexivity|].
  destruct (N.eqb_spec k' k) as [->|Hk]; simpl.
  - destruct (N.eqb_spec k j) as [->|]; [congruence|exact IH].
  - destruct (N.eqb k' j); [reflexivity|exact IH].
Qed.

Lemma in_removelast_in {A : Type} (x : A) (l : list A) : In x (removelast l) -> In x l.
Proof.
  induction l as [|y l IH]; simpl; [contradiction|].
  destruct l as [|z l']; [contradiction|].
  intros [->|H]; [left; reflexivity|right; exact (IH H)].
Qed.

Lemma lru_find_removelast (j : AccountAddress) (l : list (AccountAddress * Arc)) :
  lru_find j (removelast l) = lru_find j l \/ lru_find j (removelast l) = None.
Proof.
  induction l as [|[k v] l IH]; [left; reflexivity|].
  destruct l as [|y l']; [right; reflexivity|].
  change (removelast ((k, v) :: y :: l')) with ((k, v) :: removelast (y :: l')).
  cbn [lru_find]. destruct (N.eqb k j); [left; reflexivity|exact IH].
Qed.

Lemma lru_promote_find (j k : AccountAddress) (c : LruCache) :
  lru_find j (lru_entries (lru_promote k c)) = lru_find j (lru_entries c).
Proof.
  unfold lru_promote. destruct (lru_find k (lru_entries c)) as [v|] eqn:E; [|reflexivity].
  simpl. destruct (N.eqb_spec k j) as [->|Hne].
  - symmetry. exact E.
  - apply lru_find_detach_other. congruence.
Qed.

Lemma lru_promote_in (x : AccountAddress * Arc) (k : AccountAddress) (c : LruCache) :
  In x (lru_entries (lru_promote k c)) -> In x (lru_entries c).
Proof.
  unfold lru_promote. destruct (lru_find k (lru_entries c)) as [v|] eqn:E; [|auto].
  simpl. intros [<-|H].
  - exact (lru_find_in _ _ _ E).
  - unfold lru_detach in H. apply filter_In in H. exact (proj1 H).
Qed.

Lemma lru_push_find_same (k : AccountAddress) (v : Arc) (c : LruCache) :
  lru_find k (lru_entries (lru_push k v c)) = Some v.
Proof.
  unfold lru_push. destruct (lru_find k (lru_entries c));
    [|destruct (Nat.leb _ _)]; simpl; rewrite N.eqb_refl; reflexivity.
Qed.

Lemma lru_push_find_other (j k : AccountAddress) (v : Arc) (c : LruCache) :
  j <> k ->
  lru_find j (lru_entries (lru_push k v c)) = lru_find j (lru_entries c) \/
  lru_find j (lru_entries (lru_push k v c)) = None.
Proof.
  intros Hne. assert (Hkj : N.eqb k j = false) by (apply N.eqb_neq; congruence).
  unfold lru_push. destruct (lru_find k (lru_entries c)).
  - simpl. rewrite Hkj. left. apply lru_find_detach_other. exact Hne.
  - destruct (Nat.leb _ _); simpl; rewrite Hkj; [apply lru_find_removelast|left; reflexivity].
Qed.

Lemma lru_push_in (x : AccountAddress * Arc) (k : AccountAddress) (v : Arc) (c : LruCache) :
  In x (lru_entries (lru_push k v c)) -> x = (k, v) \/ In x (lru_entries c).
Proof.
  unfold lru_push. destruct (lru_find k (lru_entries c)).
  - simpl. intros [<-|H]; [left; reflexivity|right].
    unfold lru_detach in H. apply filter_In in H. exact (proj1 H).
  - destruct (Nat.leb _ _); simpl; intros [<-|H]; auto.
    right. exact (in_removelast_in _ _ H).
Qed.

(** What the race resolution does. *)
Lemma insert_race_cases (id : AccountAddress) (fresh : Arc) (c : LruCache) :
  (exists prev, lru_peek id c = Some prev /\
                (version (arc_pkg fresh) <= version (arc_pkg prev))%N /\
                insert_race id fresh c = (prev, lru_promote id c)) \/
  ((lru_peek id c = None \/
    exists prev, lru_peek id c = Some prev /\
                 (version (arc_pkg prev) < version (arc_pkg fresh))%N) /\
   insert_race id fresh c = (fresh, lru_push id fresh c)).
Proof.
  unfold insert_race. destruct (lru_peek id c) as [prev|] eqn:E.
  - destruct (N.leb_spec (version (arc_pkg fresh)) (version (arc_pkg prev))).
    + left. eauto.
    + right. split; [right; eauto|reflexivity].
  - right. auto.
Qed.

Lemma lru_promote_none (k : AccountAddress) (c : LruCache) :
  lru_find k (lru_entries c) = None -> lru_promote k c = c.
Proof. intros E. unfold lru_promote. rewrite E. reflexivity. Qed.

End LruFacts.

(** ** [PackageCache::package], step by step *)

Section CacheFacts.

Context {S : Type} {Store : PackageStore S}.
Variable is_system_package : AccountAddress -> bool.

Lemma refetch_unfold (id : AccountAddress) (c : @PackageCache S) :
  refetch id c =
    let (rf, s2) := store_fetch id (store c) in
    match rf with
    | Err e => (Err e, {| packages := packages c; store := s2; next_alloc := next_alloc c;
                          store_calls := store_calls c ++ [CallFetch id] |})
    | Ok p =>
        let (r, l) := insert_race id {| arc_ptr := next_alloc c; arc_pkg := p |} (packages c) in
        (Ok r, {| packages := l; store := s2; next_alloc := Nat.succ (next_alloc c);
                  store_calls := store_calls c ++ [CallFetch id] |})
    end.
Proof.
  unfold refetch, bind, call_fetch, arc_new, locked_insert_race, with_packages.
  destruct (store_fetch id (store c)) as [[p|e] s2]; [|reflexivity].
  cbn. destruct (insert_race _ _ _); reflexivity.
Qed.

Lemma package_unfold (id : AccountAddress) (c : @PackageCache S) :
  package is_system_package id c =
    match lru_peek id (packages c) with
    | Some a =>
        if negb (is_system_package id) then (Ok a, with_packages c (lru_promote id (packages c)))
        else
          let (rv, s1) := store_version id (store c) in
          let c2 := {| packages := lru_promote id (packages c); store := s1;
                       next_alloc := next_alloc c;
                       store_calls := store_calls c ++ [CallVersion id] |} in
          match rv with
          | Err e => (Err e, c2)
          | Ok v => if N.leb v (version (arc_pkg a)) then (Ok a, c2) else refetch id c2
          end
    | None => refetch id (with_packages c (lru_promote id (packages c)))
    end.
Proof.
  unfold package, bind, locked_get, lru_get, ret. cbn.
  destruct (lru_peek id (packages c)) as [a|]; [|reflexivity].
  destruct (negb (is_system_package id)); [reflexivity|].
  unfold call_version. cbn.
  destruct (store_version id (store c)) as [[v|e] s1]; [destruct (N.leb _ _)|]; reflexivity.
Qed.

End CacheFacts.

(** ** Claims about the package cache *)

(** C2 (as the code behaves): for a non-system id, a cache hit returns the
    cached handle itself and calls the store not at all (only the recency
    changes). When a first [package(id)] call succeeds, a second one
    returns the identical handle: the two calls make at most one store
    call together. A failed call caches nothing (the LRU map is left as it
    was, without [id]), so the following call for [id] fetches from the
    store again. *)
Theorem package_non_system_cached_handle {S : Type} {Store : PackageStore S}
    (is_system_package : AccountAddress -> bool) (id : AccountAddress) :
  is_system_package id = false ->
  (forall (c : @PackageCache S) a, lru_peek id (packages c) = Some a ->
     package is_system_package id c = (Ok a, with_packages c (lru_promote id (packages c)))) /\
  (forall (c c1 : @PackageCache S) a1, package is_system_package id c = (Ok a1, c1) ->
     (List.length (store_calls c1) <= List.length (store_calls c) + 1)%nat /\
     package is_system_package id c1 = (Ok a1, with_packages c1 (lru_promote id (packages c1)))) /\
  (forall (c c1 : @PackageCache S) e, package is_system_package id c = (Err e, c1) ->
     packages c1 = packages c /\ lru_peek id (packages c1) = None /\
     store_calls (snd (package is_system_package id c1)) = store_calls c1 ++ [CallFetch id]).
Proof.
  intros Hsys.
  assert (Hhit : forall (c : @PackageCache S) a, lru_peek id (packages c) = Some a ->
            package is_system_package id c = (Ok a, with_packages c (lru_promote id (packages c)))).
  { intros c a Ha. rewrite package_unfold, Ha, Hsys. reflexivity. }
  split; [exact Hhit|]. split.
  2:{ intros c c1 e H. rewrite package_unfold in H.
      destruct (lru_peek id (packages c)) as [a|] eqn:E.
      - rewrite Hsys in H. discriminate.
      - rewrite refetch_unfold in H. simpl in H.
        unfold lru_peek in E. rewrite (lru_promote_none id _ E) in H.
        destruct (store_fetch id (store c)) as [[p|e'] s2];
          [destruct (insert_race _ _ _); discriminate|].
        injection H as _ <-. simpl.
        split; [reflexivity|split; [exact E|]].
        rewrite package_unfold. simpl. unfold lru_peek. rewrite E.
        rewrite refetch_unfold. simpl.
        destruct (store_fetch id _) as [[p'|e''] s3]; [destruct (insert_race _ _ _)|]; reflexivity. }
  intros c c1 a1 H. rewrite package_unfold in H.
  destruct (lru_peek id (packages c)) as [a|] eqn:E.
  - rewrite Hsys in H. simpl in H. injection H as <- <-.
    split; [simpl; lia|]. apply Hhit.
    unfold lru_peek. simpl. rewrite lru_promote_find. exact E.
  - rewrite refetch_unfold in H. simpl in H.
    destruct (store_fetch id (store c)) as [[p|e] s2]; [|discriminate].
    set (fresh := {| arc_ptr := next_alloc c; arc_pkg := p |}) in H.
    destruct (insert_race_cases id fresh (lru_promote id (packages c)))
      as [[prev [Hp _]]|[_ Hins]].
    + unfold lru_peek in Hp. rewrite lru_promote_find in Hp. unfold lru_peek in E. congruence.
    + rewrite Hins in H. injection H as <- <-.
      split; [simpl; rewrite length_app; simpl; lia|]. apply Hhit.
      unfold lru_peek. simpl. apply lru_push_find_same.
Qed.

Lemma package_non_system_cached_handle_witness :
  (let r1 := @package _ Samples.db_store Samples.is_system_package 9 Samples.fresh_cache in
   exists a1, fst r1 = Ok a1 /\
    fst (@package _ Samples.db_store Samples.is_system_package 9 (snd r1)) = Ok a1 /\
    store_calls (snd (@package _ Samples.db_store Samples.is_system_package 9 (snd r1)))
    = [CallFetch 9]) /\
  (let c1 := snd (@package _ Samples.db_store Samples.is_system_package 5 Samples.fresh_cache) in
   lru_peek 5 (packages c1) = None /\
   store_calls (snd (@package _ Samples.db_store Samples.is_system_package 5 c1))
   = store_calls c1 ++ [CallFetch 5]).
Proof.
  split.
  2:{ destruct (package_non_system_cached_handle (Store := Samples.db_store)
                  Samples.is_system_package 5 eq_refl) as [_ [_ Hfail]].
      intros c1.
      destruct (@package _ Samples.db_store Samples.is_system_package 5 Samples.fresh_cache)
        as [[a|e] c1'] eqn:E; [vm_compute in E; discriminate|].
      destruct (Hfail _ _ _ E) as [_ H]. exact H. }
  destruct (package_non_system_cached_handle (Store := Samples.db_store)
              Samples.is_system_package 9 eq_refl) as [_ [Hseq _]].
  intros r1.
  destruct r1 as [[a1|e] c1] eqn:E; [|discriminate].
  exists a1. destruct (Hseq _ _ _ E) as [_ H2]. simpl. rewrite H2. simpl.
  split; [reflexivity|]. split; [reflexivity|].
  unfold r1 in E. vm_compute in E. injection E as _ <-. reflexivity.
Defined.

(** C2 fails as stated: when the first call fails (no package 5 in the
    store), nothing is cached, and two calls make two store calls. *)
Lemma package_failed_calls_query_twice :
  store_calls
    (snd (@package _ Samples.db_store Samples.is_system_package 5
            (snd (@package _ Samples.db_store Samples.is_system_package 5 Samples.fresh_cache))))
  = [CallFetch 5; CallFetch 5]
  /\ Samples.is_system_package 5 = false.
Proof. split; reflexivity. Qed.

(** C3: for a system package cached as [a], [package] asks the store for
    the id's current version. A store error is returned as such. If the
    version is at most the cached one, the cached handle is returned
    unchanged. Otherwise the package is fetched again: a fetch error is
    returned as such, and a fetched package of the store's newer version is
    returned (a new handle) and cached. Staleness itself is never an
    error. *)
Theorem package_system_revalidates {S : Type} {Store : PackageStore S}
    (is_system_package : AccountAddress -> bool) (id : AccountAddress)
    (c : @PackageCache S) (a : Arc) :
  is_system_package id = true ->
  lru_peek id (packages c) = Some a ->
  let (rv, s1) := store_version id (store c) in
  match rv with
  | Err e => fst (package is_system_package id c) = Err e
  | Ok v =>
      if N.leb v (version (arc_pkg a)) then
        package is_system_package id c =
          (Ok a, {| packages := lru_promote id (packages c); store := s1;
                    next_alloc := next_alloc c;
                    store_calls := store_calls c ++ [CallVersion id] |})
      else
        let (rf, s2) := store_fetch id s1 in
        store_calls (snd (package is_system_package id c))
          = store_calls c ++ [CallVersion id; CallFetch id] /\
        match rf with
        | Err e => fst (package is_system_package id c) = Err e
        | Ok p =>
            version p = v ->
            fst (package is_system_package id c) = Ok {| arc_ptr := next_alloc c; arc_pkg := p |} /\
            cached_version (snd (package is_system_package id c)) id = Some v
        end
  end.
Proof.
  intros Hsys Ha. rewrite !package_unfold, Ha, Hsys. simpl negb. cbv iota.
  destruct (store_version id (store c)) as [[v|e] s1]; [|reflexivity].
  destruct (N.leb_spec v (version (arc_pkg a))) as [Hle|Hlt]; [reflexivity|].
  rewrite !refetch_unfold. simpl packages. simpl store. simpl next_alloc. simpl store_calls.
  destruct (store_fetch id s1) as [[p|e] s2]; [|simpl; rewrite <- app_assoc; auto].
  set (fresh := {| arc_ptr := next_alloc c; arc_pkg := p |}).
  destruct (insert_race_cases id fresh (lru_promote id (packages c)))
    as [[prev [Hp [Hle' Hins]]]|[_ Hins]]; rewrite Hins; simpl.
  - split; [rewrite <- app_assoc; reflexivity|]. intros Hv.
    unfold lru_peek in Hp. rewrite lru_promote_find in Hp. unfold lru_peek in Ha.
    rewrite Ha in Hp. injection Hp as <-. simpl in Hle'. lia.
  - split; [rewrite <- app_assoc; reflexivity|]. intros Hv. split; [reflexivity|].
    unfold cached_version, lru_peek. simpl. rewrite lru_push_find_same. simpl. congruence.
Qed.

Lemma package_system_revalidates_witness :
  let c1 := snd (@package _ Samples.db_store Samples.is_system_package 2 Samples.fresh_cache) in
  let c2 := replace_store c1 Samples.db_v2 in
  cached_version c1 2 = Some 1 /\
  cached_version (snd (@package _ Samples.db_store Samples.is_system_package 2 c2)) 2 = Some 2.
Proof.
  intros c1 c2. split; [vm_compute; reflexivity|].
  pose proof (package_system_revalidates (Store := Samples.db_store) Samples.is_system_package
                2 c2 {| arc_ptr := 0; arc_pkg :=
                          {| storage_id := 2; runtime_id := 2; version := 1;
                             modules := [("coin", {| bytecode := {| cm_address := 2; cm_structs := [] |};
                                                     type_origins := [] |})];
                             linkage := [] |} |}
                eq_refl ltac:(vm_compute; reflexivity)) as H.
  vm_compute in H. apply H. reflexivity.
Defined.

(** ** Versions over sequences of calls *)

(** The race resolution never lowers the version cached under any id. *)
Lemma insert_race_monotone (id : AccountAddress) (fresh : Arc) (l : LruCache)
    (k : AccountAddress) (v v' : SequenceNumber) :
  option_map (fun a => version (arc_pkg a)) (lru_peek k l) = Some v ->
  option_map (fun a => version (arc_pkg a)) (lru_peek k (snd (insert_race id fresh l))) = Some v' ->
  v <= v'.
Proof.
  unfold lru_peek. intros H1 H2.
  destruct (insert_race_cases id fresh l) as [[prev [Hp [Hle Hins]]]|[Hp Hins]];
    rewrite Hins in H2; simpl in H2.
  - rewrite lru_promote_find, H1 in H2. injection H2 as ->. lia.
  - destruct (N.eqb_spec k id) as [->|Hne].
    + rewrite lru_push_find_same in H2. simpl in H2. injection H2 as <-.
      unfold lru_peek in Hp. destruct Hp as [Hp|[prev [Hp Hlt]]]; rewrite Hp in H1;
        [discriminate|]. injection H1 as <-. lia.
    + destruct (lru_push_find_other k id fresh l Hne) as [E|E]; rewrite E in H2;
        [rewrite H1 in H2; injection H2 as ->; lia|discriminate].
Qed.

Section Monotone.

Context {S : Type} {Store : PackageStore S}.
Variable is_system_package : AccountAddress -> bool.
Variable latest : S -> AccountAddress -> option SequenceNumber.

Hypothesis version_le : forall id s, store_le latest s (snd (store_version id s)).
Hypothesis fetch_le : forall id s, store_le latest s (snd (store_fetch id s)).
Hypothesis fetch_latest : forall id s p,
  fst (store_fetch id s) = Ok p -> latest (snd (store_fetch id s)) id = Some (version p).

Lemma store_le_refl (s : S) : store_le latest s s.
Proof. intros k v H. exists v. split; [exact H|lia]. Qed.

Lemma store_le_trans (s1 s2 s3 : S) :
  store_le latest s1 s2 -> store_le latest s2 s3 -> store_le latest s1 s3.
Proof.
  intros H12 H23 k v H. destruct (H12 k v H) as [v2 [H2 Hle2]].
  destruct (H23 k v2 H2) as [v3 [H3 Hle3]]. exists v3. split; [exact H3|lia].
Qed.

(** What one [package] call may do to the map: keep or drop what is
    cached, and add, under [id] only, the package the store just
    returned, which carries the store's latest version. *)
Definition step_ok (id : AccountAddress) (c c' : @PackageCache S) : Prop :=
  store_le latest (store c) (store c') /\
  (forall k a, In (k, a) (lru_entries (packages c')) ->
     In (k, a) (lru_entries (packages c)) \/
     (k = id /\ latest (store c') id = Some (version (arc_pkg a)))) /\
  (forall k, lru_find k (lru_entries (packages c')) = lru_find k (lru_entries (packages c)) \/
             lru_find k (lru_entries (packages c')) = None \/
             (k = id /\ exists a, lru_find k (lru_entries (packages c')) = Some a /\
                                  latest (store c') id = Some (version (arc_pkg a)))).

(** A step that only promotes [id] and moves the store forward, followed
    by a [step_ok] step, is a [step_ok] step. *)
Lemma step_ok_after_promote (id : AccountAddress) (c c2 c' : @PackageCache S) :
  packages c2 = lru_promote id (packages c) -> store_le latest (store c) (store c2) ->
  step_ok id c2 c' -> step_ok id c c'.
Proof.
  intros Hp Hle [Hle' [Hin Hfind]]. split; [|split].
  - exact (store_le_trans _ _ _ Hle Hle').
  - intros k a H. destruct (Hin k a H) as [H'|H']; [left|right; exact H'].
    rewrite Hp in H'. exact (lru_promote_in _ _ _ H').
  - intros k. specialize (Hfind k). rewrite Hp, lru_promote_find in Hfind. exact Hfind.
Qed.

Lemma refetch_step (id : AccountAddress) (c : @PackageCache S) :
  step_ok id c (snd (refetch id c)).
Proof.
  rewrite refetch_unfold.
  pose proof (fetch_le id (store c)) as Hle. pose proof (fetch_latest id (store c)) as Hlat.
  destruct (store_fetch id (store c)) as [[p|e] s2]; simpl in Hle, Hlat.
  - specialize (Hlat p eq_refl).
    set (fresh := {| arc_ptr := next_alloc c; arc_pkg := p |}).
    destruct (insert_race_cases id fresh (packages c)) as [[prev [_ [_ Hins]]]|[_ Hins]];
      rewrite Hins; simpl; (split; [exact Hle|split]).
    + intros k a H. left. exact (lru_promote_in _ _ _ H).
    + intros k. left. apply lru_promote_find.
    + intros k a H. destruct (lru_push_in _ _ _ _ H) as [[= -> ->]|H']; [right|left; exact H'].
      split; [reflexivity|exact Hlat].
    + intros k. destruct (N.eqb_spec k id) as [->|Hne].
      * right. right. split; [reflexivity|]. exists fresh.
        split; [apply lru_push_find_same|exact Hlat].
      * destruct (lru_push_find_other k id fresh (packages c) Hne) as [E|E]; auto.
  - split; [exact Hle|]. split; [intros k a H; left; exact H|intros k; left; reflexivity].
Qed.

Lemma package_step (id : AccountAddress) (c : @PackageCache S) :
  step_ok id c (snd (package is_system_package id c)).
Proof.
  rewrite package_unfold.
  assert (Hpromote : forall c2, packages c2 = lru_promote id (packages c) ->
            store_le latest (store c) (store c2) -> step_ok id c c2).
  { intros c2 Hp Hle. split; [exact Hle|]. rewrite Hp. split.
    - intros k a H. left. exact (lru_promote_in _ _ _ H).
    - intros k. left. apply lru_promote_find. }
  destruct (lru_peek id (packages c)) as [a|].
  - destruct (negb (is_system_package id)).
    + apply Hpromote; [reflexivity|apply store_le_refl].
    + pose proof (version_le id (store c)) as Hle.
      destruct (store_version id (store c)) as [[v|e] s1]; simpl in Hle.
      * destruct (N.leb v (version (arc_pkg a))).
        -- apply Hpromote; [reflexivity|exact Hle].
        -- eapply step_ok_after_promote; [| |apply refetch_step]; [reflexivity|exact Hle].
      * apply Hpromote; [reflexivity|exact Hle].
  - eapply step_ok_after_promote; [| |apply refetch_step]; [reflexivity|apply store_le_refl].
Qed.

(** Every cached version is at most the store's latest one. *)
Definition cache_bounded (c : @PackageCache S) : Prop :=
  forall k a, In (k, a) (lru_entries (packages c)) ->
    exists v, latest (store c) k = Some v /\ version (arc_pkg a) <= v.

(** [v0] is a lower bound for [k]: for the store's version and for what is
    cached. *)
Definition lower_bound (c : @PackageCache S) (k : AccountAddress) (v0 : SequenceNumber) : Prop :=
  (exists v, latest (store c) k = Some v /\ v0 <= v) /\
  (forall a, lru_find k (lru_entries (packages c)) = Some a -> v0 <= version (arc_pkg a)).

Lemma cache_bounded_step (id : AccountAddress) (c c' : @PackageCache S) :
  step_ok id c c' -> cache_bounded c -> cache_bounded c'.
Proof.
  intros [Hle [Hin _]] Hb k a H. destruct (Hin k a H) as [H'|[-> Hl]].
  - destruct (Hb k a H') as [v [Hv Hav]]. destruct (Hle k v Hv) as [v' [Hv' Hvv']].
    exists v'. split; [exact Hv'|lia].
  - exists (version (arc_pkg a)). split; [exact Hl|lia].
Qed.

Lemma lower_bound_step (id : AccountAddress) (c c' : @PackageCache S)
    (k : AccountAddress) (v0 : SequenceNumber) :
  step_ok id c c' -> lower_bound c k v0 -> lower_bound c' k v0.
Proof.
  intros [Hle [_ Hfind]] [[v [Hv Hv0]] Hc].
  destruct (Hle k v Hv) as [v' [Hv' Hvv']].
  split; [exists v'; split; [exact Hv'|lia]|].
  intros a Ha. destruct (Hfind k) as [E|[E|[-> [a' [E Hl]]]]].
  - rewrite E in Ha. exact (Hc a Ha).
  - congruence.
  - rewrite E in Ha. injection Ha as ->. rewrite Hv' in Hl. injection Hl as <-. lia.
Qed.

Lemma upgrade_step (id : AccountAddress) (c : @PackageCache S) (s' : S) :
  store_le latest (store c) s' -> step_ok id c (replace_store c s').
Proof.
  intros Hle. split; [exact Hle|]. split; [intros k a H; left; exact H|intros k; left; reflexivity].
Qed.

Lemma trace_invariant (P : @PackageCache S -> Prop) (c c' : @PackageCache S) :
  (forall id c1 c2, step_ok id c1 c2 -> P c1 -> P c2) ->
  cache_trace is_system_package latest c c' -> P c -> P c'.
Proof.
  intros Hstep Htr. induction Htr as [c|c c1 id Htr IH|c c1 s' Htr IH Hle]; intros Hc.
  - exact Hc.
  - apply (Hstep id c1); [apply package_step|exact (IH Hc)].
  - apply (Hstep 0%N c1); [apply upgrade_step; exact Hle|exact (IH Hc)].
Qed.

Lemma trace_monotone (c c' : @PackageCache S) (k : AccountAddress) (v v' : SequenceNumber) :
  cache_bounded c -> cache_trace is_system_package latest c c' ->
  cached_version c k = Some v -> cached_version c' k = Some v' -> v <= v'.
Proof.
  intros Hb Htr Hv Hv'.
  assert (Hlb : lower_bound c k v).
  { unfold cached_version, lru_peek in Hv.
    destruct (lru_find k (lru_entries (packages c))) as [a|] eqn:E; [|discriminate].
    injection Hv as <-. split.
    - exact (Hb k a (lru_find_in _ _ _ E)).
    - intros a' Ha'. rewrite E in Ha'. injection Ha' as <-. lia. }
  destruct (trace_invariant (fun c => lower_bound c k v) c c'
              (fun id c1 c2 H => lower_bound_step id c1 c2 k v H) Htr Hlb) as [_ Hc].
  unfold cached_version, lru_peek in Hv'.
  destruct (lru_find k (lru_entries (packages c'))) as [a|] eqn:E; [|discriminate].
  injection Hv' as <-. exact (Hc a eq_refl).
Qed.

Lemma with_store_bounded (s0 : S) : cache_bounded (with_store s0).
Proof. intros k a H. destruct H. Qed.

End Monotone.

(** The indexer-backed store satisfies the hypotheses of [Monotone]. *)
Lemma db_version_le (id : AccountAddress) (db : IndexerReader) :
  store_le db_latest db (snd (db_version id db)).
Proof. intros k v H. exists v. split; [exact H|lia]. Qed.

Lemma db_fetch_le (deser : bytes -> result CompiledModule string)
    (bcs : bytes -> result Object string) (id : AccountAddress) (db : IndexerReader) :
  store_le db_latest db (snd (db_fetch deser bcs id db)).
Proof. intros k v H. exists v. split; [exact H|lia]. Qed.

Lemma db_fetch_latest (deser : bytes -> result CompiledModule string)
    (bcs : bytes -> result Object string) (id : AccountAddress) (db : IndexerReader)
    (p : Package) :
  fst (db_fetch deser bcs id db) = Ok p -> db_latest (snd (db_fetch deser bcs id db)) id = Some (version p).
Proof.
  unfold db_fetch, db_latest. simpl.
  destruct (run_query db id) as [[[v bs]|]|e]; try discriminate.
  destruct (bcs bs) as [o|m]; [|discriminate].
  intros H. apply make_package_version in H. rewrite (proj1 H). reflexivity.
Qed.

(** C1: the race resolution keeps a cached package whose version is at
    least the fresh one's (promoting and returning it) and otherwise inserts
    and returns the fresh one; it never lowers the version cached under any
    id. Over any sequence of [package] calls on a new cache, with the store
    moving forward in between (its versions never decrease, and a fetch
    returns the store's latest version), the version cached under an id
    never decreases. *)
Theorem package_cache_version_monotone {S : Type} {Store : PackageStore S}
    (is_system_package : AccountAddress -> bool)
    (latest : S -> AccountAddress -> option SequenceNumber)
    (version_le : forall id s, store_le latest s (snd (store_version id s)))
    (fetch_le : forall id s, store_le latest s (snd (store_fetch id s)))
    (fetch_latest : forall id s p,
       fst (store_fetch id s) = Ok p -> latest (snd (store_fetch id s)) id = Some (version p)) :
  (forall id fresh l,
     match lru_peek id l with
     | Some prev =>
         if N.leb (version (arc_pkg fresh)) (version (arc_pkg prev))
         then insert_race id fresh l = (prev, lru_promote id l) /\
              lru_entries (lru_promote id l) = (id, prev) :: lru_detach id (lru_entries l)
         else insert_race id fresh l = (fresh, lru_push id fresh l) /\
              lru_peek id (lru_push id fresh l) = Some fresh
     | None => insert_race id fresh l = (fresh, lru_push id fresh l) /\
               lru_peek id (lru_push id fresh l) = Some fresh
     end) /\
  (forall id fresh l k v v',
     option_map (fun a => version (arc_pkg a)) (lru_peek k l) = Some v ->
     option_map (fun a => version (arc_pkg a)) (lru_peek k (snd (insert_race id fresh l))) = Some v' ->
     v <= v') /\
  (forall s0 c1 c2 k v1 v2,
     cache_trace is_system_package latest (with_store s0) c1 ->
     cache_trace is_system_package latest c1 c2 ->
     cached_version c1 k = Some v1 -> cached_version c2 k = Some v2 -> v1 <= v2).
Proof.
  split; [|split].
  - intros id fresh l. unfold insert_race.
    destruct (lru_peek id l) as [prev|] eqn:E.
    + destruct (N.leb _ _).
      * split; [reflexivity|]. unfold lru_promote. unfold lru_peek in E. rewrite E. reflexivity.
      * split; [reflexivity|]. apply lru_push_find_same.
    + split; [reflexivity|]. apply lru_push_find_same.
  - exact insert_race_monotone.
  - intros s0 c1 c2 k v1 v2 H1 H2 Hv1 Hv2.
    apply (trace_monotone is_system_package latest version_le fetch_le fetch_latest c1 c2 k);
      auto.
    apply (trace_invariant is_system_package latest version_le fetch_le fetch_latest
             (cache_bounded latest) (with_store s0) c1); auto.
    + intros id c c' H. exact (cache_bounded_step latest id c c' H).
    + apply with_store_bounded.
Qed.

Lemma sample_db_upgrade : store_le db_latest Samples.db_v1 Samples.db_v2.
Proof.
  intros k v. unfold db_latest, run_query. cbn -[N.eqb version_of_i64].
  destruct (N.eqb 2 k).
  - intros H. injection H as H. subst v. eexists. split; [reflexivity|vm_compute; discriminate].
  - destruct (N.eqb 9 k); [|discriminate].
    intros H. injection H as H. subst v. eexists. split; [reflexivity|lia].
Qed.

Lemma package_cache_version_monotone_witness :
  let c1 := snd (@package _ Samples.db_store Samples.is_system_package 2 Samples.fresh_cache) in
  let c2 := snd (@package _ Samples.db_store Samples.is_system_package 2
                   (replace_store c1 Samples.db_v2)) in
  cached_version c1 2 = Some 1 /\ cached_version c2 2 = Some 2 /\ 1 <= 2.
Proof.
  intros c1 c2.
  destruct (package_cache_version_monotone (Store := Samples.db_store) Samples.is_system_package
              db_latest db_version_le
              (db_fetch_le Samples.toy_deserialize Samples.toy_bcs)
              (db_fetch_latest Samples.toy_deserialize Samples.toy_bcs)) as [_ [_ Hmono]].
  assert (H1 : cached_version c1 2 = Some 1) by (vm_compute; reflexivity).
  assert (H2 : cached_version c2 2 = Some 2) by (vm_compute; reflexivity).
  split; [exact H1|split; [exact H2|]].
  apply (Hmono Samples.db_v1 c1 c2 2 1 2); [| |exact H1|exact H2].
  - apply trace_call. apply trace_refl.
  - apply trace_call. apply trace_upgrade; [apply trace_refl|exact sample_db_upgrade].
Defined.

(** ** Unknown ids *)

Section Backed.

Context {S : Type} {Store : PackageStore S}.
Variable is_system_package : AccountAddress -> bool.
Variable knows : S -> AccountAddress -> Prop.

Hypothesis knows_version : forall id s k, knows s k -> knows (snd (store_version id s)) k.
Hypothesis knows_fetch : forall id s k, knows s k -> knows (snd (store_fetch id s)) k.
Hypothesis fetch_knows : forall id s p,
  fst (store_fetch id s) = Ok p -> knows (snd (store_fetch id s)) id.

Lemma refetch_backed (id : AccountAddress) (c : @PackageCache S) :
  (forall k a, In (k, a) (lru_entries (packages c)) -> knows (store c) k) ->
  cache_backed knows (snd (refetch id c)).
Proof.
  intros Hb. rewrite refetch_unfold.
  pose proof (knows_fetch id (store c)) as Hk. pose proof (fetch_knows id (store c)) as Hf.
  destruct (store_fetch id (store c)) as [[p|e] s2]; simpl in Hk, Hf.
  - specialize (Hf p eq_refl).
    destruct (insert_race_cases id {| arc_ptr := next_alloc c; arc_pkg := p |} (packages c))
      as [[prev [_ [_ Hins]]]|[_ Hins]]; rewrite Hins; intros k a H; simpl in H |- *.
    + exact (Hk k (Hb k a (lru_promote_in _ _ _ H))).
    + destruct (lru_push_in _ _ _ _ H) as [[= -> _]|H']; [exact Hf|exact (Hk k (Hb k a H'))].
  - intros k a H. exact (Hk k (Hb k a H)).
Qed.

Lemma package_backed (id : AccountAddress) (c : @PackageCache S) :
  cache_backed knows c -> cache_backed knows (snd (package is_system_package id c)).
Proof.
  intros Hb. rewrite package_unfold.
  destruct (lru_peek id (packages c)) as [a|].
  - destruct (negb (is_system_package id)).
    + intros k a' H. exact (Hb k a' (lru_promote_in _ _ _ H)).
    + pose proof (knows_version id (store c)) as Hk.
      destruct (store_version id (store c)) as [[v|e] s1]; simpl in Hk.
      * destruct (N.leb v (version (arc_pkg a))).
        -- intros k a' H. exact (Hk k (Hb k a' (lru_promote_in _ _ _ H))).
        -- apply refetch_backed. intros k a' H. exact (Hk k (Hb k a' (lru_promote_in _ _ _ H))).
      * intros k a' H. exact (Hk k (Hb k a' (lru_promote_in _ _ _ H))).
  - apply refetch_backed. intros k a' H. exact (Hb k a' (lru_promote_in _ _ _ H)).
Qed.

Lemma package_calls_backed (ids : list AccountAddress) (c : @PackageCache S) :
  cache_backed knows c -> cache_backed knows (package_calls is_system_package ids c).
Proof.
  revert c. induction ids as [|id ids IH]; intros c Hb; [exact Hb|].
  simpl. apply IH, package_backed, Hb.
Qed.

Lemma package_unknown_fails (id : AccountAddress) (c : @PackageCache S) (e : Error) :
  cache_backed knows c -> ~ knows (store c) id -> fst (store_fetch id (store c)) = Err e ->
  fst (package is_system_package id c) = Err e.
Proof.
  intros Hb Hunk Hf. rewrite package_unfold.
  destruct (lru_peek id (packages c)) as [a|] eqn:E.
  - exfalso. apply Hunk. exact (Hb id a (lru_find_in _ _ _ E)).
  - rewrite refetch_unfold. simpl.
    destruct (store_fetch id (store c)) as [[p|e'] s2]; simpl in Hf; [discriminate|simpl; congruence].
Qed.

End Backed.

Lemma with_store_backed {S : Type} {Store : PackageStore S} (knows : S -> AccountAddress -> Prop)
    (s : S) : cache_backed knows (with_store s).
Proof. intros k a H. destruct H. Qed.

Lemma lookup_object_filter_other (k j : ObjectID) (rows : list (ObjectID * Object)) :
  k <> j ->
  lookup_object k (filter (fun '(k', _) => negb (N.eqb k' j)) rows) = lookup_object k rows.
Proof.
  intros Hne. induction rows as [|[k' o'] rows IH]; [reflexivity|].
  simpl. destruct (N.eqb_spec k' j) as [->|Hj]; simpl.
  - assert (N.eqb j k = false) as -> by (apply N.eqb_neq; congruence). exact IH.
  - destruct (N.eqb k' k); [reflexivity|exact IH].
Qed.

Lemma lookup_object_tables_update (o : Object) (t : PackageStoreTables) (k : ObjectID) :
  lookup_object k (packages_table t) <> None ->
  lookup_object k (packages_table (snd (tables_update o t))) <> None.
Proof.
  unfold tables_update. destruct (table_fault t); [auto|].
  cbn [snd packages_table lookup_object].
  destruct (_ =? k) eqn:Ek; [discriminate|].
  apply N.eqb_neq in Ek. rewrite lookup_object_filter_other by congruence. auto.
Qed.

Lemma local_get_knows (get_object : ObjectID -> result Object string) (id k : AccountAddress)
    (s : LocalDBPackageStore) :
  local_knows get_object s k -> local_knows get_object (snd (local_get get_object id s)) k.
Proof.
  intros [Hrow|Hrem]; [left|right; exact Hrem].
  unfold local_get. destruct (table_get (package_store_tables s) id) as [[o|]|e]; auto.
  destruct (get_object id) as [o|m]; [|exact Hrow].
  unfold local_update. simpl.
  destruct (try_as_package (data o)); [|exact Hrow].
  pose proof (lookup_object_tables_update o (package_store_tables s) k Hrow) as H.
  destruct (tables_update o (package_store_tables s)) as [r t]; simpl in H.
  destruct r; exact H.
Qed.

Lemma local_get_ok_knows (get_object : ObjectID -> result Object string) (id : AccountAddress)
    (s : LocalDBPackageStore) (o : Object) :
  fst (local_get get_object id s) = Ok o -> local_knows get_object (snd (local_get get_object id s)) id.
Proof.
  unfold local_get. destruct (table_get (package_store_tables s) id) as [[o'|]|e] eqn:E;
    try discriminate.
  - intros _. left. unfold table_get in E. destruct (table_fault _); [discriminate|].
    injection E as E. simpl. rewrite E. discriminate.
  - destruct (get_object id) as [o'|m] eqn:Hr; [|discriminate].
    intros _. right. eauto.
Qed.

Lemma local_get_table_fault (get_object : ObjectID -> result Object string) (id : AccountAddress)
    (s : LocalDBPackageStore) :
  table_fault (package_store_tables s) = None ->
  table_fault (package_store_tables (snd (local_get get_object id s))) = None.
Proof.
  intros Hf. unfold local_get, table_get. rewrite Hf.
  destruct (lookup_object id _); [exact Hf|].
  destruct (get_object id) as [o|m]; [|exact Hf].
  unfold local_update. simpl. destruct (try_as_package (data o)); [|exact Hf].
  unfold tables_update. rewrite Hf. reflexivity.
Qed.

Section StoreInvariant.

Context {S : Type} {Store : PackageStore S}.
Variable is_system_package : AccountAddress -> bool.
Variable P : S -> Prop.

Hypothesis P_version : forall id s, P s -> P (snd (store_version id s)).
Hypothesis P_fetch : forall id s, P s -> P (snd (store_fetch id s)).

Lemma refetch_store_inv (id : AccountAddress) (c : @PackageCache S) :
  P (store c) -> P (store (snd (refetch id c))).
Proof.
  intros H. rewrite refetch_unfold. pose proof (P_fetch id (store c) H) as H2.
  destruct (store_fetch id (store c)) as [[p|e] s2]; simpl in H2 |- *; [|exact H2].
  destruct (insert_race _ _ _); exact H2.
Qed.

Lemma package_store_inv (id : AccountAddress) (c : @PackageCache S) :
  P (store c) -> P (store (snd (package is_system_package id c))).
Proof.
  intros H. rewrite package_unfold.
  destruct (lru_peek id (packages c)) as [a|]; [|apply refetch_store_inv, H].
  destruct (negb (is_system_package id)); [exact H|].
  pose proof (P_version id (store c) H) as H1.
  destruct (store_version id (store c)) as [[v|e] s1]; simpl in H1 |- *; [|exact H1].
  destruct (N.leb _ _); [exact H1|apply refetch_store_inv, H1].
Qed.

Lemma package_calls_store_inv (ids : list AccountAddress) (c : @PackageCache S) :
  P (store c) -> P (store (package_calls is_system_package ids c)).
Proof.
  revert c. induction ids as [|id ids IH]; intros c H; [exact H|].
  simpl. apply IH, package_store_inv, H.
Qed.

End StoreInvariant.

Lemma local_get_remote_failure (get_object : ObjectID -> result Object string)
    (id : AccountAddress) (s : LocalDBPackageStore) (m : string) :
  table_get (package_store_tables s) id = Ok None -> get_object id = Err m ->
  fst (local_get get_object id s) = Err (PackageNotFound id).
Proof. intros Ht Hr. unfold local_get. rewrite Ht, Hr. reflexivity. Qed.

Lemma local_get_unknown (get_object : ObjectID -> result Object string)
    (id : AccountAddress) (s : LocalDBPackageStore) :
  table_fault (package_store_tables s) = None -> ~ local_knows get_object s id ->
  fst (local_get get_object id s) = Err (PackageNotFound id).
Proof.
  intros Hf Hunk.
  destruct (get_object id) as [o|m] eqn:Hr; [exfalso; apply Hunk; right; eauto|].
  apply (local_get_remote_failure _ _ _ m); [|exact Hr].
  unfold table_get. rewrite Hf.
  destruct (lookup_object id _) eqn:E; [exfalso; apply Hunk; left; rewrite E; discriminate|].
  reflexivity.
Qed.

Lemma local_version_err (get_object : ObjectID -> result Object string)
    (id : AccountAddress) (s : LocalDBPackageStore) (e : Error) :
  fst (local_get get_object id s) = Err e -> fst (local_version get_object id s) = Err e.
Proof.
  unfold local_version. destruct (local_get get_object id s) as [[o|e'] s']; simpl;
    congruence.
Qed.

Lemma local_fetch_err (deser : bytes -> result CompiledModule string)
    (get_object : ObjectID -> result Object string)
    (id : AccountAddress) (s : LocalDBPackageStore) (e : Error) :
  fst (local_get get_object id s) = Err e -> fst (local_fetch deser get_object id s) = Err e.
Proof.
  unfold local_fetch. destruct (local_get get_object id s) as [[o|e'] s']; simpl;
    congruence.
Qed.

(** C6: an id the store cannot resolve makes [package(id)] fail with
    [PackageNotFound], as do the [version] and [fetch] calls it makes: for
    [DbPackageStore] when the indexer has no row for the id, from any state the
    cache reached by earlier calls; for [LocalDBPackageStore] when neither its
    table nor the remote client knows the id at the time of the call. In the
    local store, any failure of the remote [get_object] after a table miss is
    reported as [PackageNotFound]. *)
Theorem package_unknown_id_not_found (deser : bytes -> result CompiledModule string)
    (bcs : bytes -> result Object string) (get_object : ObjectID -> result Object string)
    (is_system_package : AccountAddress -> bool) :
  (forall (db : IndexerReader) (id : AccountAddress),
     db_fault db = None -> ~ db_knows db id ->
     fst (db_version id db) = Err (PackageNotFound id) /\
     fst (db_fetch deser bcs id db) = Err (PackageNotFound id) /\
     forall ids : list AccountAddress,
       fst (@package _ (DbPackageStore deser bcs) is_system_package id
              (@package_calls _ (DbPackageStore deser bcs) is_system_package ids (with_store db)))
       = Err (PackageNotFound id)) /\
  (forall (s0 : LocalDBPackageStore) (ids : list AccountAddress) (id : AccountAddress),
     let c := @package_calls _ (LocalDBPackageStore_instance deser get_object)
                is_system_package ids (with_store s0) in
     table_fault (package_store_tables s0) = None ->
     ~ local_knows get_object (store c) id ->
     fst (local_version get_object id (store c)) = Err (PackageNotFound id) /\
     fst (local_fetch deser get_object id (store c)) = Err (PackageNotFound id) /\
     fst (@package _ (LocalDBPackageStore_instance deser get_object) is_system_package id c)
     = Err (PackageNotFound id)) /\
  (forall (s : LocalDBPackageStore) (id : AccountAddress) (m : string),
     table_get (package_store_tables s) id = Ok None -> get_object id = Err m ->
     fst (local_get get_object id s) = Err (PackageNotFound id) /\
     fst (local_version get_object id s) = Err (PackageNotFound id) /\
     fst (local_fetch deser get_object id s) = Err (PackageNotFound id)).
Proof.
  split; [|split].
  - intros db id Hf Hunk.
    assert (Hrow : lookup_row id (objects db) = None)
      by (destruct (lookup_row id (objects db)) eqn:E; [exfalso; apply Hunk; unfold db_knows; rewrite E; discriminate|reflexivity]).
    assert (Hv : fst (db_version id db) = Err (PackageNotFound id))
      by (unfold db_version, run_query; rewrite Hf, Hrow; reflexivity).
    assert (Hfe : fst (db_fetch deser bcs id db) = Err (PackageNotFound id))
      by (unfold db_fetch, run_query; rewrite Hf, Hrow; reflexivity).
    split; [exact Hv|split; [exact Hfe|]].
    intros ids.
    set (c := @package_calls _ (DbPackageStore deser bcs) is_system_package ids (with_store db)).
    assert (Hs : store c = db).
    { apply (@package_calls_store_inv _ (DbPackageStore deser bcs) is_system_package
               (fun s => s = db)); [intros i s ->; reflexivity|intros i s ->; reflexivity|reflexivity]. }
    assert (Hdv : forall i s k, db_knows s k -> db_knows (snd (db_version i s)) k)
      by (intros i s k H; exact H).
    assert (Hdf : forall i s k, db_knows s k -> db_knows (snd (db_fetch deser bcs i s)) k)
      by (intros i s k H; exact H).
    assert (Hdk : forall i s p, fst (db_fetch deser bcs i s) = Ok p ->
                                db_knows (snd (db_fetch deser bcs i s)) i).
    { intros i s p. unfold db_fetch, run_query, db_knows. simpl.
      destruct (db_fault s); [discriminate|].
      destruct (lookup_row i (objects s)); [intros _; discriminate|discriminate]. }
    apply (@package_unknown_fails _ (DbPackageStore deser bcs) is_system_package
             db_knows).
    + apply (@package_calls_backed _ (DbPackageStore deser bcs) is_system_package
               db_knows Hdv Hdf Hdk), with_store_backed.
    + rewrite Hs. exact Hunk.
    + rewrite Hs. exact Hfe.
  - intros s0 ids id c Hf Hunk.
    set (LS := LocalDBPackageStore_instance deser get_object).
    assert (Hf' : table_fault (package_store_tables (store c)) = None).
    { apply (@package_calls_store_inv _ LS is_system_package
               (fun s => table_fault (package_store_tables s) = None)); [| |exact Hf].
      - intros i s H. simpl. unfold local_version.
        pose proof (local_get_table_fault get_object i s H) as H'.
        destruct (local_get get_object i s) as [r s']; exact H'.
      - intros i s H. simpl. unfold local_fetch.
        pose proof (local_get_table_fault get_object i s H) as H'.
        destruct (local_get get_object i s) as [r s']; exact H'. }
    pose proof (local_get_unknown get_object id (store c) Hf' Hunk) as Hg.
    assert (Hfe := local_fetch_err deser get_object id (store c) _ Hg).
    split; [apply local_version_err, Hg|split; [exact Hfe|]].
    assert (Hlv : forall i s k, local_knows get_object s k ->
                  local_knows get_object (snd (local_version get_object i s)) k).
    { intros i s k H. unfold local_version.
      pose proof (local_get_knows get_object i k s H) as H'.
      destruct (local_get get_object i s) as [r s']; exact H'. }
    assert (Hlf : forall i s k, local_knows get_object s k ->
                  local_knows get_object (snd (local_fetch deser get_object i s)) k).
    { intros i s k H. unfold local_fetch.
      pose proof (local_get_knows get_object i k s H) as H'.
      destruct (local_get get_object i s) as [r s']; exact H'. }
    assert (Hlk : forall i s p, fst (local_fetch deser get_object i s) = Ok p ->
                  local_knows get_object (snd (local_fetch deser get_object i s)) i).
    { intros i s p. unfold local_fetch.
      pose proof (local_get_ok_knows get_object i s) as H'.
      destruct (local_get get_object i s) as [[o|e] s']; simpl in H' |- *; [|discriminate].
      intros _. exact (H' o eq_refl). }
    apply (@package_unknown_fails _ LS is_system_package (local_knows get_object)).
    + apply (@package_calls_backed _ LS is_system_package (local_knows get_object) Hlv Hlf Hlk),
        with_store_backed.
    + exact Hunk.
    + exact Hfe.
  - intros s id m Ht Hr.
    pose proof (local_get_remote_failure get_object id s m Ht Hr) as H.
    split; [exact H|split; [apply local_version_err, H|apply local_fetch_err, H]].
Qed.

Lemma package_unknown_id_not_found_witness :
  (~ db_knows Samples.db_v1 5 /\
   fst (@package _ Samples.db_store Samples.is_system_package 5
          (@package_calls _ Samples.db_store Samples.is_system_package [2; 9]
             (with_store Samples.db_v1))) = Err (PackageNotFound 5)) /\
  fst (@package _ (LocalDBPackageStore_instance Samples.toy_deserialize Samples.package_remote)
         Samples.is_system_package 5
         (@package_calls _ (LocalDBPackageStore_instance Samples.toy_deserialize Samples.package_remote)
            Samples.is_system_package [9] (with_store Samples.empty_local)))
    = Err (PackageNotFound 5) /\
  fst (local_get Samples.coin_remote 5 Samples.empty_local) = Err (PackageNotFound 5).
Proof.
  assert (Hdb : ~ db_knows Samples.db_v1 5) by (intros H; apply H; reflexivity).
  split; [split; [exact Hdb|]|split].
  - destruct (package_unknown_id_not_found Samples.toy_deserialize Samples.toy_bcs
                Samples.package_remote Samples.is_system_package) as [H _].
    exact (proj2 (proj2 (H Samples.db_v1 5 eq_refl Hdb)) [2; 9]).
  - destruct (package_unknown_id_not_found Samples.toy_deserialize Samples.toy_bcs
                Samples.package_remote Samples.is_system_package) as [_ [H _]].
    refine (proj2 (proj2 (H Samples.empty_local [9] 5 eq_refl _))).
    intros [Hrow|[o Hr]]; [apply Hrow; vm_compute; reflexivity|vm_compute in Hr; discriminate].
  - destruct (package_unknown_id_not_found Samples.toy_deserialize Samples.toy_bcs
                Samples.coin_remote Samples.is_system_package) as [_ [_ H]].
    exact (proj1 (H Samples.empty_local 5 "object not found" eq_refl eq_refl)).
Defined.

(** ** Keyed lists: [lru_detach] and the table's [filter] *)

Lemma keys_filter_neq {A : Type} (k j : N) (l : list (N * A)) :
  In j (map fst (filter (fun '(k', _) => negb (N.eqb k' k)) l)) -> j <> k /\ In j (map fst l).
Proof.
  intros H. apply in_map_iff in H as [[j' v] [Hj Hin]]. simpl in Hj. subst j'.
  apply filter_In in Hin as [Hin Hneq]. apply negb_true_iff, N.eqb_neq in Hneq.
  split; [exact Hneq|]. apply (in_map fst) in Hin. exact Hin.
Qed.

Lemma nodup_keys_filter {A : Type} (k : N) (l : list (N * A)) :
  NoDup (map fst l) -> NoDup (map fst (filter (fun '(k', _) => negb (N.eqb k' k)) l)).
Proof.
  induction l as [|[k' v'] l IH]; intros Hnd; [constructor|].
  cbn [map fst] in Hnd. inversion Hnd as [|? ? Hnotin Hnd']; subst.
  simpl. destruct (negb (N.eqb k' k)); [|exact (IH Hnd')].
  cbn [map fst]. constructor; [|exact (IH Hnd')].
  intros Hin. apply Hnotin. exact (proj2 (keys_filter_neq k k' l Hin)).
Qed.

Lemma filter_keys_length_le {A : Type} (k : N) (l : list (N * A)) :
  (List.length (filter (fun '(k', _) => negb (N.eqb k' k)) l) <= List.length l)%nat.
Proof.
  induction l as [|[k' v'] l IH]; simpl; [lia|].
  destruct (negb (N.eqb k' k)); simpl; lia.
Qed.

Lemma lru_detach_length_lt (k : AccountAddress) (l : list (AccountAddress * Arc)) (v : Arc) :
  lru_find k l = Some v -> (List.length (lru_detach k l) < List.length l)%nat.
Proof.
  unfold lru_detach. induction l as [|[k' v'] l IH]; simpl; [discriminate|].
  destruct (N.eqb_spec k' k) as [->|Hne]; simpl.
  - intros _. apply Nat.lt_succ_r. apply filter_keys_length_le.
  - intros H. specialize (IH H). apply (proj1 (Nat.succ_lt_mono _ _)). exact IH.
Qed.

Lemma lru_find_none_notin (k : AccountAddress) (l : list (AccountAddress * Arc)) :
  lru_find k l = None -> ~ In k (map fst l).
Proof.
  induction l as [|[k' v'] l IH]; simpl; [auto|].
  destruct (N.eqb_spec k' k) as [->|Hne]; [discriminate|].
  intros H [H'|H']; [congruence|exact (IH H H')].
Qed.

Lemma lru_find_nodup_in (k : AccountAddress) (l : list (AccountAddress * Arc)) (v : Arc) :
  NoDup (map fst l) -> In (k, v) l -> lru_find k l = Some v.
Proof.
  induction l as [|[k' v'] l IH]; simpl; [contradiction|].
  intros Hnd Hin. inversion Hnd as [|? ? Hnotin Hnd']; subst.
  destruct Hin as [[= -> ->]|Hin]; [rewrite N.eqb_refl; reflexivity|].
  destruct (N.eqb_spec k' k) as [->|Hne].
  - exfalso. apply Hnotin. apply (in_map fst) in Hin. exact Hin.
  - exact (IH Hnd' Hin).
Qed.

Lemma removelast_keys_nodup (l : list (AccountAddress * Arc)) :
  NoDup (map fst l) -> NoDup (map fst (removelast l)).
Proof.
  induction l as [|x l IH]; intros Hnd; [constructor|].
  destruct l as [|y l']; [constructor|].
  change (removelast (x :: y :: l')) with (x :: removelast (y :: l')).
  cbn [map] in Hnd |- *. inversion Hnd as [|? ? Hnotin Hnd']; subst.
  constructor; [|exact (IH Hnd')].
  intros Hin. apply Hnotin. apply in_map_iff in Hin as [z [Hz Hin]].
  rewrite <- Hz. change (In (fst z) (map fst (y :: l'))).
  apply in_map. exact (in_removelast_in _ _ Hin).
Qed.

Lemma removelast_length_succ {A : Type} (x : A) (l : list A) :
  Nat.succ (List.length (removelast (x :: l))) = List.length (x :: l).
Proof.
  revert x. induction l as [|y l IH]; intros x; [reflexivity|].
  change (removelast (x :: y :: l)) with (x :: removelast (y :: l)).
  cbn [List.length]. rewrite IH. reflexivity.
Qed.

Lemma removelast_or_last {A : Type} (x : A) (l : list A) :
  In x l -> In x (removelast l) \/ x = last l x.
Proof.
  induction l as [|y l IH]; [contradiction|].
  destruct l as [|z l'].
  - intros [<-|[]]. right. reflexivity.
  - change (removelast (y :: z :: l')) with (y :: removelast (z :: l')).
    change (last (y :: z :: l') x) with (last (z :: l') x).
    intros [<-|Hin]; [left; left; reflexivity|].
    destruct (IH Hin) as [H|H]; [left; right; exact H|right; exact H].
Qed.

(** ** What the LRU map keeps *)

(** What [LruCache] keeps: a positive capacity, at most that many entries,
    and one entry per key. *)
Definition lru_ok (c : LruCache) : Prop :=
  (0 < lru_cap c)%nat /\ (List.length (lru_entries c) <= lru_cap c)%nat /\
  NoDup (map fst (lru_entries c)).

Lemma lru_promote_head (k : AccountAddress) (c : LruCache) (v : Arc) :
  lru_find k (lru_entries c) = Some v ->
  lru_entries (lru_promote k c) = (k, v) :: lru_detach k (lru_entries c).
Proof. intros E. unfold lru_promote. rewrite E. reflexivity. Qed.

Lemma lru_push_head (k : AccountAddress) (v : Arc) (c : LruCache) :
  exists rest, lru_entries (lru_push k v c) = (k, v) :: rest.
Proof.
  unfold lru_push. destruct (lru_find k (lru_entries c)); [|destruct (Nat.leb _ _)]; simpl; eauto.
Qed.

Lemma lru_promote_cap (k : AccountAddress) (c : LruCache) : lru_cap (lru_promote k c) = lru_cap c.
Proof. unfold lru_promote. destruct (lru_find k (lru_entries c)); reflexivity. Qed.

Lemma lru_push_cap (k : AccountAddress) (v : Arc) (c : LruCache) :
  lru_cap (lru_push k v c) = lru_cap c.
Proof.
  unfold lru_push. destruct (lru_find k (lru_entries c)); [|destruct (Nat.leb _ _)]; reflexivity.
Qed.

Lemma lru_detach_cons_ok (k : AccountAddress) (v : Arc) (c : LruCache) (v0 : Arc) :
  lru_ok c -> lru_find k (lru_entries c) = Some v0 ->
  (List.length ((k, v) :: lru_detach k (lru_entries c)) <= lru_cap c)%nat /\
  NoDup (map fst ((k, v) :: lru_detach k (lru_entries c))).
Proof.
  intros [Hcap [Hlen Hnd]] E. split.
  - pose proof (lru_detach_length_lt k _ v0 E). simpl. lia.
  - cbn [map fst]. constructor.
    + intros Hin. exact (proj1 (keys_filter_neq k k _ Hin) eq_refl).
    + exact (nodup_keys_filter k _ Hnd).
Qed.

Lemma lru_promote_ok (k : AccountAddress) (c : LruCache) : lru_ok c -> lru_ok (lru_promote k c).
Proof.
  intros Hok. destruct (lru_find k (lru_entries c)) as [v|] eqn:E.
  - destruct (lru_detach_cons_ok k v c v Hok E) as [Hl Hn].
    unfold lru_ok. rewrite lru_promote_cap, (lru_promote_head k c v E).
    split; [exact (proj1 Hok)|split; assumption].
  - rewrite lru_promote_none by exact E. exact Hok.
Qed.

Lemma lru_push_ok (k : AccountAddress) (v : Arc) (c : LruCache) : lru_ok c -> lru_ok (lru_push k v c).
Proof.
  intros Hok. pose proof Hok as [Hcap [Hlen Hnd]].
  unfold lru_ok. rewrite lru_push_cap. split; [exact Hcap|].
  unfold lru_push. destruct (lru_find k (lru_entries c)) as [v0|] eqn:E.
  - exact (lru_detach_cons_ok k v c v0 Hok E).
  - pose proof (lru_find_none_notin k _ E) as Hni.
    destruct (Nat.leb_spec (lru_cap c) (List.length (lru_entries c))) as [Hfull|Hroom];
      simpl; (split; [|constructor]).
    + destruct (lru_entries c) as [|x l] eqn:El; [simpl in Hfull; lia|].
      simpl (List.length (_ :: removelast _)). rewrite removelast_length_succ. exact Hlen.
    + intros Hin. apply Hni. apply in_map_iff in Hin as [z [Hz Hin]].
      rewrite <- Hz. apply in_map. exact (in_removelast_in _ _ Hin).
    + exact (removelast_keys_nodup _ Hnd).
    + lia.
    + exact Hni.
    + exact Hnd.
Qed.

(** An entry a [promote] or a [push] drops: only a [push] of a new key into a
    full map drops one, the least recently used. *)
Lemma lru_promote_keeps (x : AccountAddress * Arc) (k : AccountAddress) (c : LruCache) :
  In x (lru_entries c) -> fst x <> k -> In x (lru_entries (lru_promote k c)).
Proof.
  intros Hin Hne. unfold lru_promote. destruct (lru_find k (lru_entries c)); [|exact Hin].
  simpl. right. unfold lru_detach. apply filter_In. split; [exact Hin|].
  destruct x as [j w]. simpl in Hne. apply negb_true_iff, N.eqb_neq. exact Hne.
Qed.

Lemma lru_push_keeps (x : AccountAddress * Arc) (k : AccountAddress) (v : Arc) (c : LruCache) :
  In x (lru_entries c) -> fst x <> k ->
  In x (lru_entries (lru_push k v c)) \/
  (lru_find k (lru_entries c) = None /\ (lru_cap c <= List.length (lru_entries c))%nat /\
   x = last (lru_entries c) x).
Proof.
  intros Hin Hne. unfold lru_push. destruct (lru_find k (lru_entries c)) as [v0|] eqn:E.
  - left. simpl. right. unfold lru_detach. apply filter_In. split; [exact Hin|].
    destruct x as [j w]. simpl in Hne. apply negb_true_iff, N.eqb_neq. exact Hne.
  - destruct (Nat.leb_spec (lru_cap c) (List.length (lru_entries c))) as [Hfull|Hroom].
    + destruct (removelast_or_last x _ Hin) as [Hk|Hk].
      * left. right. exact Hk.
      * right. split; [reflexivity|split; [exact Hfull|exact Hk]].
    + left. right. exact Hin.
Qed.

(** ** [PackageCache::package] and the LRU map *)

Section PackageLru.

Context {S : Type} {Store : PackageStore S}.
Variable is_system_package : AccountAddress -> bool.

Section Preserved.

Variable P : LruCache -> Prop.
Hypothesis P_promote : forall k l, P l -> P (lru_promote k l).
Hypothesis P_push : forall k v l, P l -> P (lru_push k v l).

Lemma refetch_lru (id : AccountAddress) (c : @PackageCache S) :
  P (packages c) -> P (packages (snd (refetch id c))).
Proof.
  intros H. rewrite refetch_unfold.
  destruct (store_fetch id (store c)) as [[p|e] s2]; simpl; [|exact H].
  destruct (insert_race_cases id {| arc_ptr := next_alloc c; arc_pkg := p |} (packages c))
    as [[prev [_ [_ Hins]]]|[_ Hins]]; rewrite Hins; simpl; auto.
Qed.

Lemma package_lru (id : AccountAddress) (c : @PackageCache S) :
  P (packages c) -> P (packages (snd (package is_system_package id c))).
Proof.
  intros H. rewrite package_unfold.
  destruct (lru_peek id (packages c)) as [a|]; [|apply refetch_lru; simpl; auto].
  destruct (negb (is_system_package id)); [simpl; auto|].
  destruct (store_version id (store c)) as [[v|e] s1]; simpl; [|auto].
  destruct (N.leb _ _); [simpl; auto|apply refetch_lru; simpl; auto].
Qed.

Lemma package_calls_lru (ids : list AccountAddress) (c : @PackageCache S) :
  P (packages c) -> P (packages (package_calls is_system_package ids c)).
Proof.
  revert c. induction ids as [|id ids IH]; intros c H; [exact H|].
  simpl. apply IH, package_lru, H.
Qed.

End Preserved.

Lemma refetch_head (id : AccountAddress) (c : @PackageCache S) (a : Arc) :
  fst (refetch id c) = Ok a ->
  exists rest, lru_entries (packages (snd (refetch id c))) = (id, a) :: rest.
Proof.
  rewrite refetch_unfold.
  destruct (store_fetch id (store c)) as [[p|e] s2]; simpl; [|discriminate].
  destruct (insert_race_cases id {| arc_ptr := next_alloc c; arc_pkg := p |} (packages c))
    as [[prev [Hpk [_ Hins]]]|[_ Hins]]; rewrite Hins; simpl; intros [= <-].
  - rewrite (lru_promote_head id (packages c) prev Hpk). eauto.
  - apply lru_push_head.
Qed.

Lemma package_head (id : AccountAddress) (c : @PackageCache S) (a : Arc) :
  fst (package is_system_package id c) = Ok a ->
  exists rest, lru_entries (packages (snd (package is_system_package id c))) = (id, a) :: rest.
Proof.
  rewrite package_unfold.
  destruct (lru_peek id (packages c)) as [a0|] eqn:E; [|apply refetch_head].
  destruct (negb (is_system_package id)).
  - simpl. intros [= <-]. rewrite (lru_promote_head id (packages c) a0 E). eauto.
  - destruct (store_version id (store c)) as [[v|e] s1]; simpl; [|discriminate].
    destruct (N.leb _ _); [|apply refetch_head].
    simpl. intros [= <-]. rewrite (lru_promote_head id (packages c) a0 E). eauto.
Qed.

Lemma refetch_err_packages (id : AccountAddress) (c : @PackageCache S) (e : Error) :
  fst (refetch id c) = Err e -> packages (snd (refetch id c)) = packages c.
Proof.
  rewrite refetch_unfold.
  destruct (store_fetch id (store c)) as [[p|e'] s2]; simpl; [|reflexivity].
  destruct (insert_race _ _ _); discriminate.
Qed.

Lemma package_err_packages (id : AccountAddress) (c : @PackageCache S) (e : Error) :
  fst (package is_system_package id c) = Err e ->
  packages (snd (package is_system_package id c)) = lru_promote id (packages c).
Proof.
  rewrite package_unfold.
  destruct (lru_peek id (packages c)) as [a0|] eqn:E; [|apply refetch_err_packages].
  destruct (negb (is_system_package id)); [discriminate|].
  destruct (store_version id (store c)) as [[v|e'] s1]; simpl; [|reflexivity].
  destruct (N.leb _ _); [discriminate|apply refetch_err_packages].
Qed.

Lemma refetch_calls (id : AccountAddress) (c : @PackageCache S) :
  store_calls (snd (refetch id c)) = store_calls c ++ [CallFetch id].
Proof.
  rewrite refetch_unfold.
  destruct (store_fetch id (store c)) as [[p|e] s2]; [destruct (insert_race _ _ _)|]; reflexivity.
Qed.

Lemma refetch_drops (x : AccountAddress * Arc) (id : AccountAddress) (c : @PackageCache S) :
  In x (lru_entries (packages c)) -> fst x <> id ->
  In x (lru_entries (packages (snd (refetch id c)))) \/
  (lru_find id (lru_entries (packages c)) = None /\
   (lru_cap (packages c) <= List.length (lru_entries (packages c)))%nat /\
   x = last (lru_entries (packages c)) x).
Proof.
  intros Hin Hne. rewrite refetch_unfold.
  destruct (store_fetch id (store c)) as [[p|e] s2]; simpl; [|left; exact Hin].
  destruct (insert_race_cases id {| arc_ptr := next_alloc c; arc_pkg := p |} (packages c))
    as [[prev [_ [_ Hins]]]|[_ Hins]]; rewrite Hins; simpl.
  - left. exact (lru_promote_keeps x id _ Hin Hne).
  - exact (lru_push_keeps x id _ _ Hin Hne).
Qed.

Lemma package_drops (x : AccountAddress * Arc) (id : AccountAddress) (c : @PackageCache S) :
  In x (lru_entries (packages c)) -> fst x <> id ->
  In x (lru_entries (packages (snd (package is_system_package id c)))) \/
  (lru_peek id (packages c) = None /\
   (lru_cap (packages c) <= List.length (lru_entries (packages c)))%nat /\
   x = last (lru_entries (packages c)) x).
Proof.
  intros Hin Hne. pose proof (lru_promote_keeps x id _ Hin Hne) as Hp.
  rewrite package_unfold.
  destruct (lru_peek id (packages c)) as [a0|] eqn:E.
  - destruct (negb (is_system_package id)); [left; exact Hp|].
    destruct (store_version id (store c)) as [[v|e] s1]; simpl; [|left; exact Hp].
    destruct (N.leb _ _); [left; exact Hp|].
    destruct (refetch_drops x id
                {| packages := lru_promote id (packages c); store := s1; next_alloc := next_alloc c;
                   store_calls := store_calls c ++ [CallVersion id] |} Hp Hne)
      as [H|[Hf _]]; [left; exact H|].
    simpl in Hf. rewrite lru_promote_find in Hf. unfold lru_peek in E. congruence.
  - unfold lru_peek in E. rewrite (lru_promote_none id _ E).
    destruct (refetch_drops x id (with_packages c (packages c)) Hin Hne) as [H|[_ H]];
      [left; exact H|right; split; [reflexivity|exact H]].
Qed.

End PackageLru.

(** ** Stores whose fetched packages carry the requested id *)

Section StorageIds.

Context {S : Type} {Store : PackageStore S}.
Variable is_system_package : AccountAddress -> bool.

Hypothesis fetch_storage_id : forall id s p, fst (store_fetch id s) = Ok p -> storage_id p = id.

Definition entries_storage_ids (l : LruCache) : Prop :=
  forall k a, In (k, a) (lru_entries l) -> storage_id (arc_pkg a) = k.

Lemma refetch_storage_ids (id : AccountAddress) (c : @PackageCache S) :
  entries_storage_ids (packages c) -> entries_storage_ids (packages (snd (refetch id c))).
Proof.
  intros H. rewrite refetch_unfold. pose proof (fetch_storage_id id (store c)) as Hf.
  destruct (store_fetch id (store c)) as [[p|e] s2]; simpl in Hf |- *; [|exact H].
  destruct (insert_race_cases id {| arc_ptr := next_alloc c; arc_pkg := p |} (packages c))
    as [[prev [_ [_ Hins]]]|[_ Hins]]; rewrite Hins; simpl; intros k a Hin.
  - exact (H k a (lru_promote_in _ _ _ Hin)).
  - destruct (lru_push_in _ _ _ _ Hin) as [[= -> ->]|Hin']; [exact (Hf p eq_refl)|exact (H k a Hin')].
Qed.

Lemma package_storage_ids (id : AccountAddress) (c : @PackageCache S) :
  entries_storage_ids (packages c) ->
  entries_storage_ids (packages (snd (package is_system_package id c))).
Proof.
  intros H.
  assert (Hp : entries_storage_ids (lru_promote id (packages c)))
    by (intros k a Hin; exact (H k a (lru_promote_in _ _ _ Hin))).
  rewrite package_unfold.
  destruct (lru_peek id (packages c)) as [a0|]; [|apply refetch_storage_ids; exact Hp].
  destruct (negb (is_system_package id)); [exact Hp|].
  destruct (store_version id (store c)) as [[v|e] s1]; simpl; [|exact Hp].
  destruct (N.leb _ _); [exact Hp|apply refetch_storage_ids; exact Hp].
Qed.

Lemma package_calls_storage_ids (ids : list AccountAddress) (c : @PackageCache S) :
  entries_storage_ids (packages c) ->
  entries_storage_ids (packages (package_calls is_system_package ids c)).
Proof.
  revert c. induction ids as [|id ids IH]; intros c H; [exact H|].
  simpl. apply IH, package_storage_ids, H.
Qed.

End StorageIds.

Lemma db_fetch_storage_id (deser : bytes -> result CompiledModule string)
    (bcs : bytes -> result Object string) (id : AccountAddress) (db : IndexerReader) (p : Package) :
  fst (db_fetch deser bcs id db) = Ok p ->
  fst (db_version id db) = Ok (version p) /\ storage_id p = id.
Proof.
  unfold db_fetch, db_version, run_query. destruct (db_fault db); simpl; [discriminate|].
  destruct (lookup_row id (objects db)) as [[v b]|]; [|discriminate].
  destruct (bcs b) as [o|m]; [|discriminate].
  intros H. destruct (make_package_version deser id _ o p H) as [-> ->]. auto.
Qed.

Lemma local_update_package (o : Object) (s : LocalDBPackageStore) (mp : MovePackage) :
  table_fault (package_store_tables s) = None -> try_as_package (data o) = Some mp ->
  local_update o s =
    (Ok tt, {| package_store_tables :=
                 {| packages_table := (object_id o, o) ::
                       filter (fun '(k', _) => negb (N.eqb k' (object_id o)))
                              (packages_table (package_store_tables s));
                    table_fault := None |};
               remote_fetches := remote_fetches s |}).
Proof.
  intros Hf Hp. unfold local_update. rewrite Hp. unfold tables_update. rewrite Hf. reflexivity.
Qed.

(** ** Further properties of [PackageCache] *)

(** After a successful [package(id)], [id] is the most recently used entry
    of the LRU map and maps to the very handle returned. *)
Theorem package_ok_most_recent {S : Type} {Store : PackageStore S}
    (is_system_package : AccountAddress -> bool) (id : AccountAddress)
    (c : @PackageCache S) (a : Arc) :
  fst (package is_system_package id c) = Ok a ->
  exists rest, lru_entries (packages (snd (package is_system_package id c))) = (id, a) :: rest.
Proof. apply package_head. Qed.

Lemma package_ok_most_recent_witness :
  match fst (@package _ Samples.db_store Samples.is_system_package 9 Samples.fresh_cache) with
  | Ok a => exists rest, lru_entries (packages (snd (@package _ Samples.db_store
                           Samples.is_system_package 9 Samples.fresh_cache))) = (9, a) :: rest
  | Err _ => False
  end.
Proof.
  destruct (fst (@package _ Samples.db_store Samples.is_system_package 9 Samples.fresh_cache))
    as [a|e] eqn:E.
  - exact (package_ok_most_recent Samples.is_system_package 9 Samples.fresh_cache a E).
  - vm_compute in E. discriminate.
Defined.

(** Whatever sequence of [package] calls a cache built by [with_store] has
    served, its LRU map keeps the capacity [PACKAGE_CACHE_SIZE] (1024), holds
    at most that many packages, and holds at most one entry per id. *)
Theorem package_cache_bounded_unique {S : Type} {Store : PackageStore S}
    (is_system_package : AccountAddress -> bool) (s0 : S) (ids : list AccountAddress) :
  let l := packages (package_calls is_system_package ids (with_store s0)) in
  lru_cap l = PACKAGE_CACHE_SIZE /\
  (List.length (lru_entries l) <= PACKAGE_CACHE_SIZE)%nat /\
  NoDup (map fst (lru_entries l)).
Proof.
  intros l.
  assert (Hc : lru_cap l = PACKAGE_CACHE_SIZE).
  { apply (package_calls_lru is_system_package (fun l0 => lru_cap l0 = PACKAGE_CACHE_SIZE)).
    - intros k l0 H. rewrite lru_promote_cap. exact H.
    - intros k v l0 H. rewrite lru_push_cap. exact H.
    - reflexivity. }
  assert (Hok : lru_ok l).
  { apply (package_calls_lru is_system_package lru_ok lru_promote_ok lru_push_ok).
    unfold lru_ok. simpl. unfold PACKAGE_CACHE_SIZE. split; [lia|split; [lia|constructor]]. }
  destruct Hok as [_ [Hlen Hnd]]. rewrite Hc in Hlen. auto.
Qed.

(** A failed [package(id)] neither inserts nor evicts anything: the cache
    holds the same (id, handle) entries as before (only the recency of [id]
    may change). *)
Theorem package_error_keeps_entries {S : Type} {Store : PackageStore S}
    (is_system_package : AccountAddress -> bool) (id : AccountAddress)
    (c : @PackageCache S) (e : Error) :
  NoDup (map fst (lru_entries (packages c))) ->
  fst (package is_system_package id c) = Err e ->
  forall x, In x (lru_entries (packages (snd (package is_system_package id c)))) <->
            In x (lru_entries (packages c)).
Proof.
  intros Hnd Herr x. rewrite (package_err_packages is_system_package id c e Herr).
  split; [apply lru_promote_in|].
  intros Hin. destruct x as [k a].
  destruct (N.eqb_spec k id) as [->|Hne]; [|exact (lru_promote_keeps (k, a) id _ Hin Hne)].
  rewrite (lru_promote_head id _ a (lru_find_nodup_in id _ a Hnd Hin)). left. reflexivity.
Qed.

Lemma package_error_keeps_entries_witness :
  let c := @package_calls _ Samples.db_store Samples.is_system_package [9] Samples.fresh_cache in
  NoDup (map fst (lru_entries (packages c))) /\
  fst (@package _ Samples.db_store Samples.is_system_package 5 c) = Err (PackageNotFound 5) /\
  (forall x, In x (lru_entries (packages (snd (@package _ Samples.db_store
                                              Samples.is_system_package 5 c)))) <->
             In x (lru_entries (packages c))).
Proof.
  intros c.
  assert (Hnd : NoDup (map fst (lru_entries (packages c))))
    by (vm_compute; constructor; [intros []|constructor]).
  assert (Herr : fst (@package _ Samples.db_store Samples.is_system_package 5 c)
                 = Err (PackageNotFound 5)) by (vm_compute; reflexivity).
  split; [exact Hnd|split; [exact Herr|]].
  exact (package_error_keeps_entries Samples.is_system_package 5 c _ Hnd Herr).
Defined.

(** The store calls one [package(id)] makes, all about [id] and never an
    [update]: none for a cached non-system id; a [version] query, possibly
    followed by a [fetch], for a cached system id; exactly one [fetch] for an
    id that is not cached. *)
Theorem package_store_calls {S : Type} {Store : PackageStore S}
    (is_system_package : AccountAddress -> bool) (id : AccountAddress) (c : @PackageCache S) :
  exists l, store_calls (snd (package is_system_package id c)) = store_calls c ++ l /\
    match lru_peek id (packages c) with
    | Some _ => if is_system_package id
                then l = [CallVersion id] \/ l = [CallVersion id; CallFetch id]
                else l = []
    | None => l = [CallFetch id]
    end.
Proof.
  rewrite package_unfold.
  destruct (lru_peek id (packages c)) as [a0|].
  - destruct (is_system_package id); simpl.
    + destruct (store_version id (store c)) as [[v|e] s1]; simpl.
      * destruct (N.leb _ _).
        -- exists [CallVersion id]. auto.
        -- exists [CallVersion id; CallFetch id]. rewrite refetch_calls. simpl.
           rewrite <- app_assoc. auto.
      * exists [CallVersion id]. auto.
    + exists []. rewrite app_nil_r. auto.
  - exists [CallFetch id]. rewrite refetch_calls. auto.
Qed.

(** [package(id)] evicts at most one entry other than [id]'s: the least
    recently used one, and only when [id] was not cached and the map was
    full. *)
Theorem package_evicts_only_lru {S : Type} {Store : PackageStore S}
    (is_system_package : AccountAddress -> bool) (id : AccountAddress)
    (c : @PackageCache S) (k : AccountAddress) (a : Arc) :
  In (k, a) (lru_entries (packages c)) -> k <> id ->
  ~ In (k, a) (lru_entries (packages (snd (package is_system_package id c)))) ->
  lru_peek id (packages c) = None /\
  (lru_cap (packages c) <= List.length (lru_entries (packages c)))%nat /\
  (k, a) = last (lru_entries (packages c)) (k, a).
Proof.
  intros Hin Hne Hout.
  destruct (package_drops is_system_package (k, a) id c Hin Hne) as [H|H];
    [contradiction|exact H].
Qed.

Lemma package_evicts_only_lru_witness :
  exists a, In (9, a) (lru_entries (packages Samples.full_one_cache)) /\
    ~ In (9, a) (lru_entries (packages (snd (@package _ Samples.db_store
                                               Samples.is_system_package 2 Samples.full_one_cache)))) /\
    lru_peek 2 (packages Samples.full_one_cache) = None /\
    (lru_cap (packages Samples.full_one_cache) <= List.length (lru_entries (packages Samples.full_one_cache)))%nat /\
    (9, a) = last (lru_entries (packages Samples.full_one_cache)) (9, a).
Proof.
  eexists. assert (Hin : In (9, _) (lru_entries (packages Samples.full_one_cache))) by (left; reflexivity).
  assert (Hout : ~ In (9, {| arc_ptr := 0;
                             arc_pkg := {| storage_id := 9; runtime_id := 5; version := 4;
                                           modules := []; linkage := [] |} |})
                   (lru_entries (packages (snd (@package _ Samples.db_store
                                                 Samples.is_system_package 2 Samples.full_one_cache)))))
    by (vm_compute; intros [H|[]]; discriminate).
  split; [exact Hin|split; [exact Hout|]].
  exact (package_evicts_only_lru (Store := Samples.db_store) Samples.is_system_package 2 Samples.full_one_cache 9 _ Hin
           ltac:(intros Heq; discriminate Heq) Hout).
Defined.

(** ** Further properties of the stores *)

(** A cache made by [PackageCache::new] (over [DbPackageStore]) only ever
    holds, under an id, a package whose storage id is that id; so every
    successful [package(id)] returns a package stored at [id]. *)
Theorem db_cache_storage_ids (deser : bytes -> result CompiledModule string)
    (bcs : bytes -> result Object string) (is_system_package : AccountAddress -> bool)
    (reader : IndexerReader) (ids : list AccountAddress) :
  let c := @package_calls _ (DbPackageStore deser bcs) is_system_package ids
             (PackageCache_new reader) in
  (forall k a, In (k, a) (lru_entries (packages c)) -> storage_id (arc_pkg a) = k) /\
  (forall id a, fst (@package _ (DbPackageStore deser bcs) is_system_package id c) = Ok a ->
                storage_id (arc_pkg a) = id).
Proof.
  intros c.
  assert (Hf : forall id s p, fst (db_fetch deser bcs id s) = Ok p -> storage_id p = id)
    by (intros id s p H; exact (proj2 (db_fetch_storage_id deser bcs id s p H))).
  assert (Hinv : entries_storage_ids (packages c)).
  { apply (@package_calls_storage_ids _ (DbPackageStore deser bcs) is_system_package Hf).
    intros k a []. }
  split; [exact Hinv|].
  intros id a Hok.
  destruct (@package_head _ (DbPackageStore deser bcs) is_system_package id c a Hok) as [rest Hr].
  apply (@package_storage_ids _ (DbPackageStore deser bcs) is_system_package Hf id c Hinv).
  rewrite Hr. left. reflexivity.
Qed.

Lemma db_cache_storage_ids_witness :
  match fst (@package _ Samples.db_store Samples.is_system_package 9
               (@package_calls _ Samples.db_store Samples.is_system_package [2]
                  (PackageCache_new Samples.db_v1))) with
  | Ok a => storage_id (arc_pkg a) = 9
  | Err _ => False
  end.
Proof.
  destruct (db_cache_storage_ids Samples.toy_deserialize Samples.toy_bcs Samples.is_system_package
              Samples.db_v1 [2]) as [_ H].
  destruct (fst (@package _ Samples.db_store Samples.is_system_package 9
               (@package_calls _ Samples.db_store Samples.is_system_package [2]
                  (PackageCache_new Samples.db_v1)))) as [a|e] eqn:E.
  - exact (H 9 a E).
  - vm_compute in E. discriminate.
Defined.

(** [DbPackageStore]'s [fetch] and [version] agree: when [fetch(id)]
    succeeds, [version(id)] on the same database returns the fetched
    package's version, and the package's storage id is [id]. *)
Theorem db_fetch_version_agree (deser : bytes -> result CompiledModule string)
    (bcs : bytes -> result Object string) (id : AccountAddress) (db : IndexerReader)
    (p : Package) :
  fst (db_fetch deser bcs id db) = Ok p ->
  fst (db_version id db) = Ok (version p) /\ storage_id p = id.
Proof. apply db_fetch_storage_id. Qed.

Lemma db_fetch_version_agree_witness :
  match fst (db_fetch Samples.toy_deserialize Samples.toy_bcs 9 Samples.db_v1) with
  | Ok p => fst (db_version 9 Samples.db_v1) = Ok (version p) /\ storage_id p = 9
  | Err _ => False
  end.
Proof.
  destruct (fst (db_fetch Samples.toy_deserialize Samples.toy_bcs 9 Samples.db_v1))
    as [p|e] eqn:E.
  - exact (db_fetch_version_agree Samples.toy_deserialize Samples.toy_bcs 9 Samples.db_v1 p E).
  - vm_compute in E. discriminate.
Defined.

(** [DbPackageStore::version] reads the [i64] column with [as u64]: a
    non-negative version is returned as is, a negative one wraps around to
    that value plus 2^64. *)
Theorem db_version_i64_as_u64 (db : IndexerReader) (id : AccountAddress) (v : Z) (b : bytes) :
  db_fault db = None -> lookup_row id (objects db) = Some (v, b) ->
  (- 2 ^ 63 <= v < 2 ^ 63)%Z ->
  fst (db_version id db) = Ok (if (0 <=? v)%Z then Z.to_N v else Z.to_N (v + 2 ^ 64)).
Proof.
  intros Hf Hr Hb. unfold db_version, run_query. rewrite Hf, Hr. simpl.
  unfold version_of_i64.
  change (2 ^ 63)%Z with 9223372036854775808%Z in Hb.
  change (2 ^ 64)%Z with 18446744073709551616%Z.
  destruct (Z.leb_spec 0 v).
  - rewrite Z.mod_small by lia. reflexivity.
  - rewrite <- (Z_mod_plus_full v 1 18446744073709551616), Z.mul_1_l.
    rewrite Z.mod_small by lia. reflexivity.
Qed.

Lemma db_version_i64_as_u64_witness :
  fst (db_version 4 {| objects := [(4, ((-1)%Z, []))]; db_fault := None |})
  = Ok 18446744073709551615.
Proof.
  exact (db_version_i64_as_u64 {| objects := [(4, ((-1)%Z, []))]; db_fault := None |} 4 (-1) []
           eq_refl eq_refl ltac:(lia)).
Defined.

(** [LocalDBPackageStore]'s [fetch] and [version] read the same object: when
    [fetch(id)] succeeds, the package is built from the object [get(id)]
    returns, with that object's id as storage id and its version, and
    [version(id)] returns the same version. *)
Theorem local_fetch_version_agree (deser : bytes -> result CompiledModule string)
    (get_object : ObjectID -> result Object string) (id : AccountAddress)
    (s : LocalDBPackageStore) (p : Package) :
  fst (local_fetch deser get_object id s) = Ok p ->
  exists o, fst (local_get get_object id s) = Ok o /\
            make_package deser (object_id o) (object_version o) o = Ok p /\
            storage_id p = object_id o /\ version p = object_version o /\
            fst (local_version get_object id s) = Ok (version p).
Proof.
  unfold local_fetch, local_version.
  destruct (local_get get_object id s) as [[o|e] s']; simpl; [|discriminate].
  intros H. destruct (make_package_version deser _ _ o p H) as [Hv Hs].
  exists o. rewrite Hv. auto.
Qed.

Lemma local_fetch_version_agree_witness :
  match fst (local_fetch Samples.toy_deserialize Samples.package_remote 9 Samples.empty_local) with
  | Ok p => exists o,
      fst (local_get Samples.package_remote 9 Samples.empty_local) = Ok o /\
      make_package Samples.toy_deserialize (object_id o) (object_version o) o = Ok p /\
      storage_id p = object_id o /\ version p = object_version o /\
      fst (local_version Samples.package_remote 9 Samples.empty_local) = Ok (version p)
  | Err _ => False
  end.
Proof.
  destruct (fst (local_fetch Samples.toy_deserialize Samples.package_remote 9 Samples.empty_local))
    as [p|e] eqn:E.
  - exact (local_fetch_version_agree Samples.toy_deserialize Samples.package_remote 9
             Samples.empty_local p E).
  - vm_compute in E. discriminate.
Defined.

(** Round trip through [LocalDBPackageStore]: once [update] has written a
    package object to a working table, [get] of that object's id returns it
    from the table, without asking the remote client and without changing
    the store. *)
Theorem local_update_get_roundtrip (get_object : ObjectID -> result Object string)
    (o : Object) (s : LocalDBPackageStore) (mp : MovePackage) :
  table_fault (package_store_tables s) = None -> try_as_package (data o) = Some mp ->
  fst (local_update o s) = Ok tt /\
  local_get get_object (object_id o) (snd (local_update o s)) = (Ok o, snd (local_update o s)).
Proof.
  intros Hf Hp. rewrite (local_update_package o s mp Hf Hp). split; [reflexivity|].
  unfold local_get, table_get. cbn [package_store_tables table_fault packages_table snd].
  unfold lookup_object. rewrite N.eqb_refl. reflexivity.
Qed.

Lemma local_update_get_roundtrip_witness :
  fst (local_update Samples.framework_object Samples.empty_local) = Ok tt /\
  local_get Samples.coin_remote 2 (snd (local_update Samples.framework_object Samples.empty_local))
  = (Ok Samples.framework_object, snd (local_update Samples.framework_object Samples.empty_local)).
Proof.
  exact (local_update_get_roundtrip Samples.coin_remote Samples.framework_object Samples.empty_local
           _ eq_refl eq_refl).
Defined.

(** [PackageStoreTables::update] on a working table writes the object under
    its own id, replacing any previous row for that id and leaving the other
    ids' rows as they were, and keeps the table at one row per id; on a
    failing table it reports [TypedStore] and writes nothing. *)
Theorem tables_update_insert_lookup (o : Object) (t : PackageStoreTables) :
  (forall m, table_fault t = Some m -> tables_update o t = (Err (TypedStore m), t)) /\
  (table_fault t = None ->
   fst (tables_update o t) = Ok tt /\
   table_fault (snd (tables_update o t)) = None /\
   (forall k, lookup_object k (packages_table (snd (tables_update o t))) =
              if N.eqb k (object_id o) then Some o else lookup_object k (packages_table t)) /\
   (NoDup (map fst (packages_table t)) ->
    NoDup (map fst (packages_table (snd (tables_update o t)))))).
Proof.
  unfold tables_update. split.
  - intros m Hm. rewrite Hm. reflexivity.
  - intros Hf. rewrite Hf. cbn [fst snd table_fault packages_table].
    split; [reflexivity|split; [reflexivity|split]].
    + intros k. cbn [lookup_object]. rewrite N.eqb_sym.
      destruct (N.eqb_spec k (object_id o)) as [_|Hne]; [reflexivity|].
      apply lookup_object_filter_other. exact Hne.
    + intros Hnd. cbn [map fst]. constructor.
      * intros Hin. exact (proj1 (keys_filter_neq _ _ _ Hin) eq_refl).
      * exact (nodup_keys_filter _ _ Hnd).
Qed.

Lemma tables_update_insert_lookup_witness :
  let t := {| packages_table := [(2, Samples.framework_object); (7, Samples.coin_object 7 1)];
              table_fault := None |} in
  lookup_object 2 (packages_table (snd (tables_update (Samples.pkg_object 2 3 [] []) t)))
    = Some (Samples.pkg_object 2 3 [] []) /\
  lookup_object 7 (packages_table (snd (tables_update (Samples.pkg_object 2 3 [] []) t)))
    = Some (Samples.coin_object 7 1) /\
  NoDup (map fst (packages_table (snd (tables_update (Samples.pkg_object 2 3 [] []) t)))) /\
  tables_update (Samples.pkg_object 2 3 [] []) {| packages_table := []; table_fault := Some "io" |}
    = (Err (TypedStore "io"), {| packages_table := []; table_fault := Some "io" |}).
Proof.
  intros t.
  destruct (tables_update_insert_lookup (Samples.pkg_object 2 3 [] []) t) as [_ H].
  destruct (H eq_refl) as [_ [_ [Hl Hnd]]].
  split; [rewrite Hl; reflexivity|split; [rewrite Hl; reflexivity|split]].
  - apply Hnd. vm_compute. constructor; [intros [H1|[]]; discriminate|constructor; [intros []|constructor]].
  - destruct (tables_update_insert_lookup (Samples.pkg_object 2 3 [] [])
                {| packages_table := []; table_fault := Some "io" |}) as [H' _].
    exact (H' "io" eq_refl).
Defined.

(** [LocalDBPackageStore::update] ignores objects that are not packages,
    succeeding without touching the table even when the table is failing; a
    package object written to a failing table gives the table's
    [TypedStore] error and changes nothing. *)
Theorem local_update_non_package_or_fault (o : Object) (s : LocalDBPackageStore) :
  (try_as_package (data o) = None -> local_update o s = (Ok tt, s)) /\
  (forall m, try_as_package (data o) <> None -> table_fault (package_store_tables s) = Some m ->
             local_update o s = (Err (TypedStore m), s)).
Proof.
  unfold local_update. split.
  - intros H. rewrite H. reflexivity.
  - intros m Hp Hm. destruct (try_as_package (data o)); [|contradiction].
    unfold tables_update. rewrite Hm. destruct s. reflexivity.
Qed.

Lemma local_update_non_package_or_fault_witness :
  let s := {| package_store_tables := {| packages_table := []; table_fault := Some "io" |};
              remote_fetches := [] |} in
  local_update (Samples.coin_object 7 1) s = (Ok tt, s) /\
  local_update Samples.framework_object s = (Err (TypedStore "io"), s).
Proof.
  intros s. split.
  - exact (proj1 (local_update_non_package_or_fault (Samples.coin_object 7 1) s) eq_refl).
  - exact (proj2 (local_update_non_package_or_fault Samples.framework_object s) "io"
             ltac:(intros Heq; discriminate Heq) eq_refl).
Defined.

(** [update_store] then [package] over [LocalDBPackageStore]: once
    [update_store] has written a package object to a working table, a
    [package] call for that object's id (not yet cached) returns the package
    materialized from that object, read from the table without any remote
    fetch. *)
Theorem update_store_then_package (deser : bytes -> result CompiledModule string)
    (get_object : ObjectID -> result Object string) (is_system_package : AccountAddress -> bool)
    (c : @PackageCache LocalDBPackageStore) (o : Object) (mp : MovePackage) (p : Package) :
  table_fault (package_store_tables (store c)) = None ->
  try_as_package (data o) = Some mp ->
  lru_peek (object_id o) (packages c) = None ->
  make_package deser (object_id o) (object_version o) o = Ok p ->
  let LS := LocalDBPackageStore_instance deser get_object in
  let c1 := snd (@update_store _ LS o c) in
  fst (@update_store _ LS o c) = Returned (Ok tt) /\
  exists a, fst (@package _ LS is_system_package (object_id o) c1) = Ok a /\ arc_pkg a = p /\
    remote_fetches (store (snd (@package _ LS is_system_package (object_id o) c1)))
    = remote_fetches (store c).
Proof.
  intros Hf Hp Hpk Hm LS c1. unfold c1, update_store. cbn [store_update LS LocalDBPackageStore_instance].
  rewrite (local_update_package o (store c) mp Hf Hp). cbn [fst snd]. split; [reflexivity|].
  rewrite package_unfold. cbn [packages store]. rewrite Hpk. rewrite refetch_unfold.
  unfold with_packages.
  cbn [store_fetch LS LocalDBPackageStore_instance packages store].
  unfold local_fetch, local_get, table_get. cbn [package_store_tables table_fault packages_table].
  unfold lookup_object. rewrite N.eqb_refl. cbn [fst snd]. rewrite Hm.
  unfold lru_peek in Hpk. unfold insert_race, lru_peek. rewrite lru_promote_find, Hpk.
  eexists. split; [reflexivity|split; reflexivity].
Qed.

Lemma update_store_then_package_witness :
  match make_package Samples.toy_deserialize (object_id Samples.framework_object)
          (object_version Samples.framework_object) Samples.framework_object with
  | Ok p =>
      let LS := LocalDBPackageStore_instance Samples.toy_deserialize Samples.coin_remote in
      let c := @with_store LocalDBPackageStore Samples.empty_local in
      let c1 := snd (@update_store _ LS Samples.framework_object c) in
      fst (@update_store _ LS Samples.framework_object c) = Returned (Ok tt) /\
      exists a, fst (@package _ LS Samples.is_system_package
                       (object_id Samples.framework_object) c1) = Ok a /\ arc_pkg a = p /\
        remote_fetches (store (snd (@package _ LS Samples.is_system_package
                                      (object_id Samples.framework_object) c1)))
        = remote_fetches (store c)
  | Err _ => False
  end.
Proof.
  destruct (make_package Samples.toy_deserialize (object_id Samples.framework_object)
              (object_version Samples.framework_object) Samples.framework_object) as [p|e] eqn:E.
  - exact (update_store_then_package Samples.toy_deserialize Samples.coin_remote
             Samples.is_system_package (with_store Samples.empty_local) Samples.framework_object
             _ p eq_refl eq_refl eq_refl E).
  - vm_compute in E. discriminate.
Defined.
